(** * Plan parser front end (internal/parser/planparserv2/plan_parser_v2.go)

    A shallow embedding of the expression-compile driver of the plan parser:
    the Han-to-escape normalizer, the pooled lexer/parser pipeline, the
    process-wide result cache, template value filling and the three plan
    builders, followed by the properties established about them.

    Go strings are byte sequences, so they are modelled by [string] (a
    sequence of 8-bit [ascii] values); runes and protobuf enums are [Z]. *)

From Stdlib Require Import ZArith Lia Bool List Ascii String.
From stdpp Require Import base option list gmap strings.

Local Open Scope Z_scope.

(** ** Go strings: bytes, runes and the UTF-8 codec used by [range] and
       [strings.Builder.WriteRune] *)

Module GoString.

Definition byteZ (b : ascii) : Z := Z.of_N (N_of_ascii b).
Definition zbyte (z : Z) : ascii := ascii_of_N (Z.to_N (z mod 256)).

Definition RuneError : Z := 0xFFFD.
Definition MaxRune : Z := 0x10FFFF.

(** [len(s)] *)
Definition len (s : string) : nat := String.length s.

(** [s[i]]; the callers guard the index, [None] stands for the run-time panic. *)
Definition index (s : string) (i : nat) : option ascii := String.get i s.

(** Number of bytes announced by a lead byte ([first] table of unicode/utf8);
    0 for a byte that cannot start a sequence. *)
Definition leadSize (s0 : Z) : nat :=
  if s0 <? 0x80 then 1%nat
  else if s0 <? 0xC2 then 0%nat
  else if s0 <? 0xE0 then 2%nat
  else if s0 <? 0xF0 then 3%nat
  else if s0 <? 0xF5 then 4%nat
  else 0%nat.

(** [acceptRanges]: bounds on the second byte, which depend on the lead byte. *)
Definition acceptLo (s0 : Z) : Z :=
  if s0 =? 0xE0 then 0xA0 else if s0 =? 0xF0 then 0x90 else 0x80.
Definition acceptHi (s0 : Z) : Z :=
  if s0 =? 0xED then 0x9F else if s0 =? 0xF4 then 0x8F else 0xBF.

Definition isCont (b : Z) : bool := (0x80 <=? b) && (b <=? 0xBF).

(** [utf8.DecodeRuneInString]: the rune at the head of [s] and its width.
    An invalid or truncated sequence decodes to [RuneError] with width 1. *)
Definition decodeRune (s : string) : Z * nat :=
  match s with
  | EmptyString => (RuneError, 0%nat)
  | String c0 t0 =>
    let s0 := byteZ c0 in
    if s0 <? 0x80 then (s0, 1%nat)
    else
      let sz := leadSize s0 in
      if (sz =? 0)%nat then (RuneError, 1%nat)
      else if (len s <? sz)%nat then (RuneError, 1%nat)
      else
        match t0 with
        | EmptyString => (RuneError, 1%nat)
        | String c1 t1 =>
          let s1 := byteZ c1 in
          if (s1 <? acceptLo s0) || (acceptHi s0 <? s1) then (RuneError, 1%nat)
          else if (sz <=? 2)%nat then
            (Z.lor (Z.shiftl (Z.land s0 0x1F) 6) (Z.land s1 0x3F), 2%nat)
          else
            match t1 with
            | EmptyString => (RuneError, 1%nat)
            | String c2 t2 =>
              let s2 := byteZ c2 in
              if negb (isCont s2) then (RuneError, 1%nat)
              else if (sz <=? 3)%nat then
                (Z.lor (Z.lor (Z.shiftl (Z.land s0 0x0F) 12)
                              (Z.shiftl (Z.land s1 0x3F) 6))
                       (Z.land s2 0x3F), 3%nat)
              else
                match t2 with
                | EmptyString => (RuneError, 1%nat)
                | String c3 _ =>
                  let s3 := byteZ c3 in
                  if negb (isCont s3) then (RuneError, 1%nat)
                  else
                    (Z.lor (Z.lor (Z.lor (Z.shiftl (Z.land s0 0x07) 18)
                                         (Z.shiftl (Z.land s1 0x3F) 12))
                                  (Z.shiftl (Z.land s2 0x3F) 6))
                           (Z.land s3 0x3F), 4%nat)
                end
            end
        end
  end.

(** [for i, r := range s]: the byte offset and the rune of every iteration.
    [skip] counts the bytes of the current rune that are still to be passed. *)
Fixpoint rangeFrom (i : nat) (skip : nat) (s : string) : list (nat * Z) :=
  match s with
  | EmptyString => []
  | String _ rest =>
    match skip with
    | S k => rangeFrom (S i) k rest
    | O =>
      let '(r, w) := decodeRune s in
      (i, r) :: rangeFrom (S i) (Nat.pred w) rest
    end
  end.

Definition rangeString (s : string) : list (nat * Z) := rangeFrom 0 0 s.

(** [utf8.AppendRune], the body of [Builder.WriteRune]. *)
Definition encode3 (r : Z) : string :=
  String (zbyte (Z.lor 0xE0 (Z.shiftr r 12)))
 (String (zbyte (Z.lor 0x80 (Z.land (Z.shiftr r 6) 0x3F)))
 (String (zbyte (Z.lor 0x80 (Z.land r 0x3F))) EmptyString)).

Definition encodeRune (r : Z) : string :=
  if (0 <=? r) && (r <=? 0x7F) then String (zbyte r) EmptyString
  else if (0 <=? r) && (r <=? 0x7FF) then
    String (zbyte (Z.lor 0xC0 (Z.shiftr r 6)))
   (String (zbyte (Z.lor 0x80 (Z.land r 0x3F))) EmptyString)
  else if (r <? 0) || (MaxRune <? r) || ((0xD800 <=? r) && (r <=? 0xDFFF)) then
    encode3 RuneError
  else if r <=? 0xFFFF then encode3 r
  else
    String (zbyte (Z.lor 0xF0 (Z.shiftr r 18)))
   (String (zbyte (Z.lor 0x80 (Z.land (Z.shiftr r 12) 0x3F)))
   (String (zbyte (Z.lor 0x80 (Z.land (Z.shiftr r 6) 0x3F)))
   (String (zbyte (Z.lor 0x80 (Z.land r 0x3F))) EmptyString))).

(** A string all of whose bytes are below 0x80. *)
Fixpoint isASCII (s : string) : bool :=
  match s with
  | EmptyString => true
  | String c rest => (byteZ c <? 0x80) && isASCII rest
  end.

End GoString.

Import GoString.

(** ** The Han-to-escape normalizer *)

(** The helpers of [convertHanToASCII] that live outside this file: the
    escape-character test, the escape encoding of a code point and the
    [unicode.Han] range table. *)
Class HanTables := {
  isEscapeCh : ascii -> bool;
  formatUnicode : Z -> string;
  isHan : Z -> bool
}.

Section Normalizer.
Context `{HanTables}.

Definition backslash : Z := 92.

(** The body of the [range] loop of [convertHanToASCII]: [s] and [n] are the
    whole input and its length, [builder] the bytes written so far. *)
Fixpoint hanLoop (s : string) (n : nat) (items : list (nat * Z))
    (skipCur : bool) (builder : string) : string :=
  match items with
  | [] => builder
  | (i, r) :: rest =>
    if skipCur then hanLoop s n rest false (builder ++ encodeRune r)
    else if r =? backslash then
      if ((i + 1 <? n)%nat &&
          negb (from_option isEscapeCh true (index s (i + 1))))%bool
      then s
      else hanLoop s n rest true (builder ++ encodeRune r)
    else if isHan r then hanLoop s n rest false (builder ++ formatUnicode r)
    else hanLoop s n rest false (builder ++ encodeRune r)
  end.

Definition convertHanToASCII (s : string) : string :=
  hanLoop s (len s) (rangeString s) false EmptyString.

End Normalizer.

(** ** Protobuf messages of the schema and of the plan *)

Module schemapb.

(** [schemapb.DataType] is an open protobuf enum: an int32 with named values. *)
Definition DataType := Z.
Definition DataType_None : DataType := 0.
Definition DataType_Bool : DataType := 1.
Definition DataType_Int8 : DataType := 2.
Definition DataType_Int16 : DataType := 3.
Definition DataType_Int32 : DataType := 4.
Definition DataType_Int64 : DataType := 5.
Definition DataType_Float : DataType := 10.
Definition DataType_Double : DataType := 11.
Definition DataType_String : DataType := 20.
Definition DataType_VarChar : DataType := 21.
Definition DataType_Array : DataType := 22.
Definition DataType_JSON : DataType := 23.
Definition DataType_BinaryVector : DataType := 100.
Definition DataType_FloatVector : DataType := 101.
Definition DataType_Float16Vector : DataType := 102.
Definition DataType_BFloat16Vector : DataType := 103.
Definition DataType_SparseFloatVector : DataType := 104.

Record FieldSchema := {
  FieldID : Z;
  Name : string;
  IsPrimaryKey : bool;
  FieldDataType : DataType;
  AutoID : bool;
  IsPartitionKey : bool
}.

(** The generated getters accept a nil receiver and then answer the zero value. *)
Definition GetFieldID (f : option FieldSchema) : Z := from_option FieldID 0 f.
Definition GetDataType (f : option FieldSchema) : DataType :=
  from_option FieldDataType DataType_None f.
Definition GetAutoID (f : option FieldSchema) : bool := from_option AutoID false f.
Definition GetIsPartitionKey (f : option FieldSchema) : bool :=
  from_option IsPartitionKey false f.

(** [IDs]: a oneof of an int64 array and a string array; every level is a
    pointer and may be nil. *)
Inductive isIDs_IdField :=
  | IDs_IntId (IntId : option (list Z))
  | IDs_StrId (StrId : option (list string)).

Record IDs := { IdField : option isIDs_IdField }.

Definition GetIdField (ids : option IDs) : option isIDs_IdField :=
  ids ≫= IdField.
Definition GetIntId (ids : option IDs) : option (list Z) :=
  match GetIdField ids with Some (IDs_IntId a) => a | _ => None end.
Definition GetStrId (ids : option IDs) : option (list string) :=
  match GetIdField ids with Some (IDs_StrId a) => a | _ => None end.
(** [LongArray.GetData] and [StringArray.GetData] *)
Definition GetData {A} (a : option (list A)) : list A := default [] a.

End schemapb.

Module planpb.

Inductive VectorType :=
  | VectorType_BinaryVector
  | VectorType_FloatVector
  | VectorType_Float16Vector
  | VectorType_BFloat16Vector
  | VectorType_SparseFloatVector.

(** The scalar variants of [GenericValue]. *)
Inductive GenericValue :=
  | GenericValue_BoolVal (BoolVal : bool)
  | GenericValue_Int64Val (Int64Val : Z)
  | GenericValue_StringVal (StringVal : string).

Record ColumnInfo := {
  FieldId : Z;
  DataType : schemapb.DataType;
  IsPrimaryKey : bool;
  IsAutoID : bool;
  IsPartitionKey : bool
}.

(** Plan expressions. [Expr_TemplateValue] is a literal that is still a
    template placeholder: it names its variable and records the data type its
    usage site asks for. *)
Inductive Expr :=
  | Expr_AlwaysTrueExpr
  | Expr_ColumnExpr (Info : ColumnInfo)
  | Expr_ValueExpr (Value : GenericValue)
  | Expr_TemplateValue (TemplateVariableName : string) (want : schemapb.DataType)
  | Expr_TermExpr (Column : ColumnInfo) (Values : list GenericValue)
  | Expr_UnaryExpr (Op : Z) (Child : Expr)
  | Expr_BinaryExpr (Op : Z) (Left Right : Expr).

Definition GetColumnExpr (e : Expr) : option ColumnInfo :=
  match e with Expr_ColumnExpr c => Some c | _ => None end.

(** A [*planpb.Expr]: either the address of a tree that lives in the store
    shared with the result cache, or a tree the caller has just built and
    alone holds. *)
Inductive ExprPtr :=
  | ExprAt (addr : nat)
  | ExprNew (e : Expr).

Record QueryInfo := {
  Topk : Z;
  MetricType : string;
  SearchParams : string;
  RoundDecimal : Z
}.

Record QueryPlanNode := {
  Predicates : option ExprPtr;
  IsCount : bool;
  Limit : Z
}.

Record VectorANNS := {
  VectorANNS_VectorType : VectorType;
  VectorANNS_FieldId : Z;
  VectorANNS_Predicates : option ExprPtr;
  VectorANNS_QueryInfo : option QueryInfo;
  VectorANNS_PlaceholderTag : string
}.

Inductive PlanNode :=
  | PlanNode_Query (Query : QueryPlanNode)
  | PlanNode_VectorAnns (VectorAnns : VectorANNS).

End planpb.

(** ** Errors *)

(** Error values are kept structured: the constructor that made them, the
    format string and the arguments, instead of the rendered text. *)
Inductive error :=
  | Errorf (format : string) (args : list fmtArg)
  | WrapErrParameterInvalidMsg (format : string) (args : list fmtArg)
  | ErrorString (msg : string)
with fmtArg :=
  | ArgString (s : string)
  | ArgError (e : error)
  | ArgDataType (d : schemapb.DataType).

(** The double-quote character, for the format strings that contain it. *)
Definition dquote : string := String (ascii_of_nat 34) EmptyString.

(** ** The schema helper *)

(** [typeutil.SchemaHelper] as the interface the parser consumes. *)
Record SchemaHelper := {
  GetCollectionName : string;
  GetFieldFromName : string -> error + schemapb.FieldSchema;
  IsFieldLoaded : Z -> bool
}.

(** ** Compiled outcomes and the collaborators of the pipeline *)

(** Modelled from the spec: [ExprWithType], declared beside the visitor, is a
    data type tag plus the plan expression it belongs to. The expression is a
    pointer, here an address in the shared store. *)
Record ExprWithType := {
  expr : nat;
  dataType : schemapb.DataType
}.

(** The [interface{}] that travels through the pipeline and is kept in the
    cache: a typed expression, an error, or a value that is neither. *)
Inductive Outcome :=
  | OExpr (e : ExprWithType)
  | OError (e : error)
  | ONil.

(** Modelled from the spec: [getError] and [getExpr] are the two type
    assertions on an outcome. *)
Definition getError (obj : Outcome) : option error :=
  match obj with OError e => Some e | _ => None end.
Definition getExpr (obj : Outcome) : option ExprWithType :=
  match obj with OExpr e => Some e | _ => None end.

(** Modelled from the spec: [canBeExecuted] holds of a predicate whose data
    type is boolean. *)
Definition canBeExecuted (e : ExprWithType) : bool :=
  dataType e =? schemapb.DataType_Bool.

(** Modelled from the spec: [isEmptyExpression] recognises the empty
    expression string. *)
Definition isEmptyExpression (s : string) : bool :=
  match s with EmptyString => true | _ => false end.

(** Modelled from the spec: [alwaysTrueExpr] builds the always-true
    expression. *)
Definition alwaysTrueExpr : planpb.Expr := planpb.Expr_AlwaysTrueExpr.

(** What the visitor hands back before it is boxed: a freshly built typed
    tree, an error, or nil. *)
Inductive VisitResult :=
  | VTyped (e : planpb.Expr) (t : schemapb.DataType)
  | VError (e : error)
  | VNil.

(** The grammar collaborator (generated lexer and parser, and the visitor).
    A stage may report one error to the listener it was given. *)
Class Grammar := {
  AST : Type;
  lexerReports : string -> option error;
  parserReports : string -> option error;
  parseExpr : string -> AST * option error;
  currentTokenIsEOF : string -> bool;
  visit : SchemaHelper -> AST -> VisitResult
}.

(** The [errorListener] interface: the recorded error, and the callback by
    which the grammar reports one. *)
Class errorListener (L : Type) := {
  Error : L -> option error;
  SyntaxError : error -> L -> L
}.

Record errorListenerImpl := { err : option error }.

#[global] Instance errorListenerImpl_listener : errorListener errorListenerImpl := {|
  Error := err;
  SyntaxError := fun e _ => {| err := Some e |}
|}.

Definition report {L} `{errorListener L} (o : option error) (l : L) : L :=
  match o with Some e => SyntaxError e l | None => l end.

(** The template collaborators: the wire type of a template value, its
    conversion to a plan literal, and the test that a literal suits the data
    type asked for where the placeholder stands. *)
Class Templates := {
  TemplateValue : Type;
  unmarshalValue : TemplateValue -> error + planpb.GenericValue;
  compatible : schemapb.DataType -> planpb.GenericValue -> bool
}.

(** ** Shared state *)

Record exprParseKey := {
  collectionName : string;
  keyExpr : string
}.

#[global] Instance exprParseKey_eq_dec : EqDecision exprParseKey.
Proof. solve_decision. Defined.

(** An entry of the expirable LRU; the cache is the list of its entries, the
    most recently used first. *)
Record CacheEntry := {
  Key : exprParseKey;
  Value : Outcome;
  ExpiresAt : Z
}.

Inductive GrammarCall :=
  | CallLexer (input : string)
  | CallParser (input : string)
  | CallParse (input : string)
  | CallVisit (input : string).

(** Process-wide state: the store of plan expressions reached through
    pointers, the result cache, the clock (in nanoseconds), the two pools of
    grammar instances (named by numbers), and a log of the calls made to the
    grammar collaborator. *)
Record State := {
  heap : list planpb.Expr;
  exprCache : list CacheEntry;
  clock : Z;
  lexerPool : list nat;
  parserPool : list nat;
  nextInstance : nat;
  grammarLog : list GrammarCall
}.

Definition initState : State := {|
  heap := []; exprCache := []; clock := 0;
  lexerPool := []; parserPool := []; nextInstance := 0%nat; grammarLog := []
|}.

Definition set_heap (h : list planpb.Expr) (st : State) : State :=
  {| heap := h; exprCache := exprCache st; clock := clock st;
     lexerPool := lexerPool st; parserPool := parserPool st;
     nextInstance := nextInstance st; grammarLog := grammarLog st |}.
Definition set_exprCache (c : list CacheEntry) (st : State) : State :=
  {| heap := heap st; exprCache := c; clock := clock st;
     lexerPool := lexerPool st; parserPool := parserPool st;
     nextInstance := nextInstance st; grammarLog := grammarLog st |}.
Definition set_clock (t : Z) (st : State) : State :=
  {| heap := heap st; exprCache := exprCache st; clock := t;
     lexerPool := lexerPool st; parserPool := parserPool st;
     nextInstance := nextInstance st; grammarLog := grammarLog st |}.
Definition set_pools (ls ps : list nat) (n : nat) (st : State) : State :=
  {| heap := heap st; exprCache := exprCache st; clock := clock st;
     lexerPool := ls; parserPool := ps;
     nextInstance := n; grammarLog := grammarLog st |}.
Definition logCall (c : GrammarCall) (st : State) : State :=
  {| heap := heap st; exprCache := exprCache st; clock := clock st;
     lexerPool := lexerPool st; parserPool := parserPool st;
     nextInstance := nextInstance st; grammarLog := grammarLog st ++ [c] |}.

(** A small state monad for the operations that touch the shared state. *)
Definition M (A : Type) : Type := State -> A * State.
Definition ret {A} (a : A) : M A := fun st => (a, st).
Definition bind {A B} (m : M A) (k : A -> M B) : M B :=
  fun st => let '(a, st') := m st in k a st'.
Definition modify (f : State -> State) : M unit := fun st => (tt, f st).
Definition gets {A} (f : State -> A) : M A := fun st => (f st, st).

Declare Scope go_scope.
Delimit Scope go_scope with go.
Notation "'do' x <- m ; k" := (bind m (fun x => k))
  (at level 10, x name, m at level 100, k at level 200) : go_scope.
Notation "'do' ' p <- m ; k" := (bind m (fun p => k))
  (at level 10, p pattern, m at level 100, k at level 200) : go_scope.
Notation "'run' m ; k" := (bind m (fun _ => k))
  (at level 10, m at level 100, k at level 200) : go_scope.

(** [new]: a fresh object in the store, named by the next free address. *)
Definition alloc (e : planpb.Expr) : M nat :=
  fun st => (length (heap st), set_heap (heap st ++ [e]) st).

(** *** The lexer and parser pools *)

(** Modelled from the spec: [getLexer], a pool helper that lives beside this
    file. Acquiring takes a pooled instance when there is one and makes a new
    one otherwise; the pool has no ceiling. The call is entered in the log of
    grammar calls. *)
Definition getLexer (input : string) : M nat :=
  fun st =>
    match lexerPool st with
    | l :: rest =>
      (l, logCall (CallLexer input) (set_pools rest (parserPool st) (nextInstance st) st))
    | [] =>
      (nextInstance st,
       logCall (CallLexer input) (set_pools [] (parserPool st) (S (nextInstance st)) st))
    end.

(** Modelled from the spec: [getParser], the same for parsers. *)
Definition getParser (input : string) : M nat :=
  fun st =>
    match parserPool st with
    | p :: rest =>
      (p, logCall (CallParser input) (set_pools (lexerPool st) rest (nextInstance st) st))
    | [] =>
      (nextInstance st,
       logCall (CallParser input) (set_pools (lexerPool st) [] (S (nextInstance st)) st))
    end.

(** Modelled from the spec: [putLexer] and [putParser] put an instance back
    into its pool. *)
Definition putLexer (l : nat) : M unit :=
  modify (fun st => set_pools (l :: lexerPool st) (parserPool st) (nextInstance st) st).
Definition putParser (p : nat) : M unit :=
  modify (fun st => set_pools (lexerPool st) (p :: parserPool st) (nextInstance st) st).

(** *** The expirable LRU cache *)

Module expirable.

Definition size : nat := 256.
(** [time.Minute * 10] in nanoseconds *)
Definition ttl : Z := 600000000000.

Fixpoint find (k : exprParseKey) (c : list CacheEntry) : option CacheEntry :=
  match c with
  | [] => None
  | e :: rest => if decide (Key e = k) then Some e else find k rest
  end.

Fixpoint remove (k : exprParseKey) (c : list CacheEntry) : list CacheEntry :=
  match c with
  | [] => []
  | e :: rest => if decide (Key e = k) then remove k rest else e :: remove k rest
  end.

(** [Get]: a present entry that has not expired is moved to the front and
    its value returned; an expired one counts as absent. *)
Definition Get (now : Z) (k : exprParseKey) (c : list CacheEntry)
    : option Outcome * list CacheEntry :=
  match find k c with
  | Some e =>
    if ExpiresAt e <? now then (None, c)
    else (Some (Value e), e :: remove k c)
  | None => (None, c)
  end.

(** [Add]: the entry goes to the front with a renewed expiry; when that
    makes the list longer than [size] the oldest entry is dropped. *)
Definition Add (now : Z) (k : exprParseKey) (v : Outcome) (c : list CacheEntry)
    : list CacheEntry :=
  let e := {| Key := k; Value := v; ExpiresAt := now + ttl |} in
  match find k c with
  | Some _ => e :: remove k c
  | None =>
    let c' := e :: c in
    if (size <? length c')%nat then removelast c' else c'
  end.

(** The background sweep that deletes the entries whose time has passed. *)
Definition deleteExpired (now : Z) (c : list CacheEntry) : list CacheEntry :=
  filter (fun e => now <= ExpiresAt e) c.

End expirable.

(** [typeutil.IsVectorType], the vector-type predicate on data types. *)
Class TypeUtil := {
  IsVectorType : schemapb.DataType -> bool
}.

(** ** The compile pipeline and the plan builders *)

Section Parser.
Context `{HanTables} `{Grammar} `{Templates} `{TypeUtil}.

Local Open Scope go_scope.

Definition exprCacheGet (k : exprParseKey) : M (option Outcome) :=
  fun st =>
    let '(v, c) := expirable.Get (clock st) k (exprCache st) in
    (v, set_exprCache c st).

Definition exprCacheAdd (k : exprParseKey) (v : Outcome) : M unit :=
  modify (fun st => set_exprCache (expirable.Add (clock st) k v (exprCache st)) st).

Definition handleExprWithErrorListener {L} `{errorListener L}
    (schema : SchemaHelper) (exprStr : string) (listener : L) : M Outcome :=
  if isEmptyExpression exprStr then
    do a <- alloc alwaysTrueExpr;
    ret (OExpr {| dataType := schemapb.DataType_Bool; expr := a |})
  else
    do lexer <- getLexer exprStr;
    let listener := report (lexerReports exprStr) listener in
    match Error listener with
    | Some e => ret (OError e)
    | None =>
      do parser <- getParser exprStr;
      let listener := report (parserReports exprStr) listener in
      match Error listener with
      | Some e => ret (OError e)
      | None =>
        run modify (logCall (CallParse exprStr));
        let '(ast, reported) := parseExpr exprStr in
        let listener := report reported listener in
        match Error listener with
        | Some e => ret (OError e)
        | None =>
          if negb (currentTokenIsEOF exprStr) then
            ret (OError (Errorf "invalid expression: %s" [ArgString exprStr]))
          else
            (* lexer & parser won't be used by this thread, can be put into pool. *)
            run putLexer lexer;
            run putParser parser;
            run modify (logCall (CallVisit exprStr));
            match visit schema ast with
            | VTyped e t =>
              do a <- alloc e;
              ret (OExpr {| dataType := t; expr := a |})
            | VError e => ret (OError e)
            | VNil => ret ONil
            end
        end
      end
    end.

Definition handleExpr (schema : SchemaHelper) (exprStr : string) : M Outcome :=
  let parseKey := {| collectionName := GetCollectionName schema; keyExpr := exprStr |} in
  do cached <- exprCacheGet parseKey;
  match cached with
  | Some val => ret val
  | None =>
    let exprStr := convertHanToASCII exprStr in
    do val <- handleExprWithErrorListener schema exprStr {| err := None |};
    (* Note that the errors will be cached, too. *)
    run exprCacheAdd parseKey val;
    ret val
  end.

(** Modelled from the spec: [UnmarshalExpressionValues] converts every
    supplied template value and fails when one of them cannot be converted. *)
Fixpoint unmarshalAll (kvs : list (string * TemplateValue))
    (acc : gmap string planpb.GenericValue)
    : error + gmap string planpb.GenericValue :=
  match kvs with
  | [] => inr acc
  | (k, v) :: rest =>
    match unmarshalValue v with
    | inl e => inl e
    | inr g => unmarshalAll rest (<[k := g]> acc)
    end
  end.

Definition UnmarshalExpressionValues (tv : gmap string TemplateValue)
    : error + gmap string planpb.GenericValue :=
  unmarshalAll (map_to_list tv) ∅.

(** Modelled from the spec: filling walks the tree and replaces every
    template placeholder by the literal supplied for its name; it fails on a
    name that was not supplied and on a literal that does not suit the usage
    site. The walk stops at the first failure, and what it replaced before
    stays replaced. *)
Fixpoint fillExpr (vm : gmap string planpb.GenericValue) (e : planpb.Expr)
    : planpb.Expr * option error :=
  match e with
  | planpb.Expr_TemplateValue name want =>
    match vm !! name with
    | None =>
      (e, Some (Errorf "the value of expression template variable name {%s} is not found"
                       [ArgString name]))
    | Some v =>
      if compatible want v then (planpb.Expr_ValueExpr v, None)
      else (e, Some (Errorf "template value of {%s} does not fit data type: %s"
                            [ArgString name; ArgDataType want]))
    end
  | planpb.Expr_UnaryExpr op c =>
    let '(c', r) := fillExpr vm c in (planpb.Expr_UnaryExpr op c', r)
  | planpb.Expr_BinaryExpr op l r =>
    let '(l', el) := fillExpr vm l in
    match el with
    | Some _ => (planpb.Expr_BinaryExpr op l' r, el)
    | None => let '(r', er) := fillExpr vm r in (planpb.Expr_BinaryExpr op l' r', er)
    end
  | _ => (e, None)
  end.

(** Modelled from the spec: [FillExpressionValue] mutates, in place, the tree
    its pointer argument designates. *)
Definition FillExpressionValue (a : nat) (vm : gmap string planpb.GenericValue)
    : M (option error) :=
  fun st =>
    match heap st !! a with
    | Some e =>
      let '(e', r) := fillExpr vm e in (r, set_heap (<[a := e']> (heap st)) st)
    | None => (None, st)
    end.

Definition ParseExpr (schema : SchemaHelper) (exprStr : string)
    (exprTemplateValues : gmap string TemplateValue) : M (option nat * option error) :=
  do ret_ <- handleExpr schema exprStr;
  match getError ret_ with
  | Some err =>
    ret (None, Some (Errorf "cannot parse expression: %s, error: %s"
                            [ArgString exprStr; ArgError err]))
  | None =>
    match getExpr ret_ with
    | None => ret (None, Some (Errorf "cannot parse expression: %s" [ArgString exprStr]))
    | Some predicate =>
      if negb (canBeExecuted predicate) then
        ret (None, Some (Errorf "predicate is not a boolean expression: %s, data type: %s"
                                [ArgString exprStr; ArgDataType (dataType predicate)]))
      else
        match UnmarshalExpressionValues exprTemplateValues with
        | inl err => ret (None, Some err)
        | inr valueMap =>
          do filled <- FillExpressionValue (expr predicate) valueMap;
          match filled with
          | Some err => ret (None, Some err)
          | None => ret (Some (expr predicate), None)
          end
        end
    end
  end.

Definition ParseIdentifier (schema : SchemaHelper) (identifier : string)
    (checkFunc : planpb.Expr -> option error) : M (option error) :=
  do ret_ <- handleExpr schema identifier;
  match getError ret_ with
  | Some err =>
    ret (Some (Errorf "cannot parse identifier: %s, error: %s"
                      [ArgString identifier; ArgError err]))
  | None =>
    match getExpr ret_ with
    | None => ret (Some (Errorf "cannot parse identifier: %s" [ArgString identifier]))
    | Some predicate =>
      do tree <- gets (fun st => heap st !! expr predicate);
      match tree with
      | Some e =>
        match planpb.GetColumnExpr e with
        | None => ret (Some (Errorf "cannot parse identifier: %s" [ArgString identifier]))
        | Some _ => ret (checkFunc e)
        end
      | None => ret (Some (Errorf "cannot parse identifier: %s" [ArgString identifier]))
      end
    end
  end.

Definition CreateRetrievePlan (schema : SchemaHelper) (exprStr : string)
    (exprTemplateValues : gmap string TemplateValue)
    : M (option planpb.PlanNode * option error) :=
  do '(expr, err) <- ParseExpr schema exprStr exprTemplateValues;
  match err with
  | Some _ => ret (None, err)
  | None =>
    let planNode := planpb.PlanNode_Query {|
      planpb.Predicates := planpb.ExprAt <$> expr;
      planpb.IsCount := false;
      planpb.Limit := 0
    |} in
    ret (Some planNode, None)
  end.

(** The [parse] closure of [CreateSearchPlan]. *)
Definition CreateSearchPlan_parse (schema : SchemaHelper) (exprStr : string)
    (exprTemplateValues : gmap string TemplateValue) : M (option nat * option error) :=
  if (len exprStr <=? 0)%nat then ret (None, None)
  else ParseExpr schema exprStr exprTemplateValues.

Definition CreateSearchPlan (schema : SchemaHelper) (exprStr : string)
    (vectorFieldName : string) (queryInfo : option planpb.QueryInfo)
    (exprTemplateValues : gmap string TemplateValue)
    : M (option planpb.PlanNode * option error) :=
  do '(expr, err) <- CreateSearchPlan_parse schema exprStr exprTemplateValues;
  match err with
  | Some _ => ret (None, err)
  | None =>
    match GetFieldFromName schema vectorFieldName with
    | inl e => ret (None, Some e)
    | inr vectorField =>
      let err : option error := None in
      (* plan ok with schema, check ann field *)
      if negb (IsFieldLoaded schema (schemapb.GetFieldID (Some vectorField))) then
        ret (None, Some (WrapErrParameterInvalidMsg
                           ("ann field " ++ dquote ++ "%s" ++ dquote ++ " not loaded")
                           [ArgString vectorFieldName]))
      else
        let fieldID := schemapb.FieldID vectorField in
        let dataType := schemapb.FieldDataType vectorField in
        if negb (IsVectorType dataType) then
          ret (None, Some (Errorf "field (%s) to search is not of vector data type"
                                  [ArgString vectorFieldName]))
        else
          let assemble (vectorType : planpb.VectorType) :=
            let planNode := planpb.PlanNode_VectorAnns {|
              planpb.VectorANNS_VectorType := vectorType;
              planpb.VectorANNS_Predicates := planpb.ExprAt <$> expr;
              planpb.VectorANNS_QueryInfo := queryInfo;
              planpb.VectorANNS_PlaceholderTag := "$0";
              planpb.VectorANNS_FieldId := fieldID
            |} in
            ret (Some planNode, None) in
          if dataType =? schemapb.DataType_BinaryVector then
            assemble planpb.VectorType_BinaryVector
          else if dataType =? schemapb.DataType_FloatVector then
            assemble planpb.VectorType_FloatVector
          else if dataType =? schemapb.DataType_Float16Vector then
            assemble planpb.VectorType_Float16Vector
          else if dataType =? schemapb.DataType_BFloat16Vector then
            assemble planpb.VectorType_BFloat16Vector
          else if dataType =? schemapb.DataType_SparseFloatVector then
            assemble planpb.VectorType_SparseFloatVector
          else
            (* default: the error is logged, and the [err] variable is returned *)
            ret (None, err)
    end
  end.

End Parser.

(** [CreateRequeryPlan] neither compiles an expression nor touches the shared
    state. *)
Definition CreateRequeryPlan (pkField : option schemapb.FieldSchema)
    (ids : option schemapb.IDs) : planpb.PlanNode :=
  let values : list planpb.GenericValue :=
    match schemapb.GetIdField ids with
    | Some (schemapb.IDs_IntId _) =>
      map planpb.GenericValue_Int64Val (schemapb.GetData (schemapb.GetIntId ids))
    | Some (schemapb.IDs_StrId _) =>
      map planpb.GenericValue_StringVal (schemapb.GetData (schemapb.GetStrId ids))
    | None => []
    end in
  planpb.PlanNode_Query {|
    planpb.Predicates := Some (planpb.ExprNew (planpb.Expr_TermExpr {|
      planpb.FieldId := schemapb.GetFieldID pkField;
      planpb.DataType := schemapb.GetDataType pkField;
      planpb.IsPrimaryKey := true;
      planpb.IsAutoID := schemapb.GetAutoID pkField;
      planpb.IsPartitionKey := schemapb.GetIsPartitionKey pkField
    |} values));
    planpb.IsCount := false;
    planpb.Limit := Z.of_nat (length values)
  |}.


(** The vector kind that corresponds to a data type: defined for the five
    vector data types the plan knows, binary, float32, float16, bfloat16 and
    sparse float. *)
Definition vectorKind (t : schemapb.DataType) : option planpb.VectorType :=
  if t =? schemapb.DataType_BinaryVector then Some planpb.VectorType_BinaryVector
  else if t =? schemapb.DataType_FloatVector then Some planpb.VectorType_FloatVector
  else if t =? schemapb.DataType_Float16Vector then Some planpb.VectorType_Float16Vector
  else if t =? schemapb.DataType_BFloat16Vector then Some planpb.VectorType_BFloat16Vector
  else if t =? schemapb.DataType_SparseFloatVector then
    Some planpb.VectorType_SparseFloatVector
  else None.

Definition isFive (t : schemapb.DataType) : bool := bool_decide (is_Some (vectorKind t)).

(** ** Vocabulary of the properties *)

(** [s] has, somewhere, a backslash byte immediately followed by a byte that
    is not an escape character. *)
Definition hasBadEscape `{HanTables} (s : string) : Prop :=
  exists (i : nat) (c : ascii),
    index s i = Some (zbyte backslash) /\ index s (i + 1) = Some c /\
    isEscapeCh c = false.

(** The left-to-right reading of escapes: a backslash that is not itself
    escaped opens an escape and the rune after it is the escaped one.
    [opensEscape items escaped i] tells whether the rune at offset [i] is a
    backslash that opens an escape; [escaped] says that the head of [items]
    follows an opening backslash. *)
Fixpoint opensEscape (items : list (nat * Z)) (escaped : bool) (i : nat) : bool :=
  match items with
  | [] => false
  | (j, r) :: rest =>
    if escaped then opensEscape rest false i
    else if r =? backslash then (j =? i)%nat || opensEscape rest true i
    else opensEscape rest false i
  end.

(** The term expression a query node tests, when its predicate is one. *)
Definition termOf (p : planpb.PlanNode)
    : option (planpb.ColumnInfo * list planpb.GenericValue) :=
  match p with
  | planpb.PlanNode_Query q =>
    match planpb.Predicates q with
    | Some (planpb.ExprNew (planpb.Expr_TermExpr c vs)) => Some (c, vs)
    | _ => None
    end
  | _ => None
  end.

(** How many ids an id list carries. *)
Definition idCount (ids : option schemapb.IDs) : nat :=
  match schemapb.GetIdField ids with
  | Some (schemapb.IDs_IntId a) => length (schemapb.GetData a)
  | Some (schemapb.IDs_StrId a) => length (schemapb.GetData a)
  | None => 0
  end.

Definition intIDs (l : list Z) : option schemapb.IDs :=
  Some {| schemapb.IdField := Some (schemapb.IDs_IntId (Some l)) |}.


Section Vocabulary.
Context `{HanTables} `{Grammar} `{Templates} `{TypeUtil}.

(** The four grammar stages, lexer construction, parser construction, the
    expression parse and the full-consumption check, all pass. *)
Definition grammarStagesPass {L} `{errorListener L} (exprStr : string) (listener : L) : bool :=
  let listener := report (lexerReports exprStr) listener in
  match Error listener with
  | Some _ => false
  | None =>
    let listener := report (parserReports exprStr) listener in
    match Error listener with
    | Some _ => false
    | None =>
      let listener := report (snd (parseExpr exprStr)) listener in
      match Error listener with
      | Some _ => false
      | None => currentTokenIsEOF exprStr
      end
    end
  end.

(** The lexer stage reported nothing, so that a parser is acquired. *)
Definition lexerStagePasses {L} `{errorListener L} (exprStr : string) (listener : L) : bool :=
  bool_decide (Error (report (lexerReports exprStr) listener) = None).

(** The instances a compile takes from the pools. *)
Definition acquiredLexer (exprStr : string) (st : State) : nat :=
  fst (getLexer exprStr st).
Definition acquiredParser (exprStr : string) (st : State) : nat :=
  fst (getParser exprStr (snd (getLexer exprStr st))).

(** No instance sits in a pool twice. *)
Definition pools_wf (st : State) : Prop :=
  NoDup (lexerPool st) /\ NoDup (parserPool st).

Definition keyOf (schema : SchemaHelper) (exprStr : string) : exprParseKey :=
  {| collectionName := GetCollectionName schema; keyExpr := exprStr |}.

(** Two states that differ at most in the store. *)
Definition sameButHeap (a b : State) : Prop :=
  exprCache a = exprCache b /\ clock a = clock b /\ grammarLog a = grammarLog b /\
  lexerPool a = lexerPool b /\ parserPool a = parserPool b /\
  nextInstance a = nextInstance b.

(** One move of the system: a public operation called with any arguments,
    the passing of time, or the cache's sweep of expired entries.
    ([CreateRequeryPlan] does not touch the state.) *)
Inductive step : State -> State -> Prop :=
  | step_ParseExpr schema exprStr tv st :
      step st (snd (ParseExpr schema exprStr tv st))
  | step_ParseIdentifier schema identifier checkFunc st :
      step st (snd (ParseIdentifier schema identifier checkFunc st))
  | step_CreateRetrievePlan schema exprStr tv st :
      step st (snd (CreateRetrievePlan schema exprStr tv st))
  | step_CreateSearchPlan schema exprStr name queryInfo tv st :
      step st (snd (CreateSearchPlan schema exprStr name queryInfo tv st))
  | step_time st t :
      clock st <= t -> step st (set_clock t st)
  | step_sweep st :
      step st (set_exprCache (expirable.deleteExpired (clock st) (exprCache st)) st).

Inductive reachable : State -> Prop :=
  | reachable_init : reachable initState
  | reachable_step st st' : reachable st -> step st st' -> reachable st'.

(** Whatever the cache holds for an empty expression string is the
    always-true predicate of boolean type. *)
Definition cache_inv (st : State) : Prop :=
  forall e, e ∈ exprCache st -> keyExpr (Key e) = EmptyString ->
    exists a, Value e = OExpr {| expr := a; dataType := schemapb.DataType_Bool |} /\
              heap st !! a = Some alwaysTrueExpr.


End Vocabulary.

(** ** Invariants of the shared state *)

(** The cache holds at most [size] entries and no key twice. *)
Definition cap_inv (st : State) : Prop :=
  (length (exprCache st) <= expirable.size)%nat /\ NoDup (Key <$> exprCache st).

(** Every typed expression in the cache points to a tree in the store. *)
Definition ptr_inv (st : State) : Prop :=
  forall e p, e ∈ exprCache st -> Value e = OExpr p -> (expr p < length (heap st))%nat.

(** No entry outlives the time to live, counted from now. *)
Definition ttl_inv (st : State) : Prop :=
  forall e, e ∈ exprCache st -> ExpiresAt e <= clock st + expirable.ttl.

(** ** Rune sequences and their encoding *)

(** A rune that has an encoding of its own: a code point that is no
    surrogate half. *)
Definition validRune (r : Z) : bool :=
  (0 <=? r) && (r <=? MaxRune) && negb ((0xD800 <=? r) && (r <=? 0xDFFF)).

Definition validRuneP (r : Z) : Prop :=
  0 <= r <= MaxRune /\ ~ (0xD800 <= r <= 0xDFFF).

(** The string [WriteRune] builds from a sequence of runes. *)
Fixpoint encodeAll (rs : list Z) : string :=
  match rs with
  | [] => EmptyString
  | r :: rest => (encodeRune r ++ encodeAll rest)%string
  end.

(** The runes of a sequence, each with the byte offset of its encoding. *)
Fixpoint offsetsFrom (i : nat) (rs : list Z) : list (nat * Z) :=
  match rs with
  | [] => []
  | r :: rest => (i, r) :: offsetsFrom (i + len (encodeRune r)) rest
  end.

(** Every Han rune replaced by its escape, every other rune encoded as it
    is. *)
Fixpoint escapeAll `{HanTables} (rs : list Z) : string :=
  match rs with
  | [] => EmptyString
  | r :: rest =>
    ((if isHan r then formatUnicode r else encodeRune r) ++ escapeAll rest)%string
  end.

(** The first byte of the encoding of a rune. *)
Definition firstByte (r : Z) : option ascii := index (encodeRune r) 0.

(** The normalization read on runes: a backslash opens an escape and the
    rune after it is copied as it is; a backslash that opens an escape and is
    followed by a rune whose first byte is no escape character gives up
    ([None]); any other Han rune is replaced by its escape. *)
Fixpoint normRunes `{HanTables} (rs : list Z) (escaped : bool) : option string :=
  match rs with
  | [] => Some EmptyString
  | r :: rest =>
    if escaped then String.append (encodeRune r) <$> normRunes rest false
    else if r =? backslash then
      if match rest with
         | next :: _ => negb (from_option isEscapeCh true (firstByte next))
         | [] => false
         end
      then None
      else String.append (encodeRune r) <$> normRunes rest true
    else
      String.append (if isHan r then formatUnicode r else encodeRune r)
        <$> normRunes rest false
  end.

(** A byte that is not ASCII and cannot begin an encoded rune. *)
Definition strayByte (b : Z) : bool :=
  ((0x80 <=? b) && (b <? 0xC2)) || (0xF5 <=? b).

(** Every non-ASCII byte replaced by the three bytes of U+FFFD. *)
Fixpoint replaceStray (s : string) : string :=
  match s with
  | EmptyString => EmptyString
  | String c rest =>
    String.append
      (if byteZ c <? 0x80 then String c EmptyString else encode3 RuneError)
      (replaceStray rest)
  end.

(** All bytes are ASCII other than the backslash, or stray. *)
Fixpoint plainOrStray (s : string) : bool :=
  match s with
  | EmptyString => true
  | String c rest =>
    (((byteZ c <? 0x80) && negb (byteZ c =? backslash)) || strayByte (byteZ c))
    && plainOrStray rest
  end.

(** ** Invariants of the pools and of the log of grammar calls *)

(** The string a grammar call was made on. *)
Definition callInput (c : GrammarCall) : string :=
  match c with
  | CallLexer s | CallParser s | CallParse s | CallVisit s => s
  end.

(** Each pool holds at most one instance. *)
Definition pools_small (st : State) : Prop :=
  (length (lexerPool st) <= 1)%nat /\ (length (parserPool st) <= 1)%nat.

(** Every grammar call on record was made on a string that is not empty and
    is the normalization of some expression string. *)
Definition log_inv `{HanTables} (st : State) : Prop :=
  forall c, c ∈ grammarLog st ->
    isEmptyExpression (callInput c) = false /\
    exists raw, callInput c = convertHanToASCII raw.

(** The invariants taken together. *)
Definition state_inv (st : State) : Prop := cap_inv st /\ ptr_inv st /\ ttl_inv st.

Definition grammar_inv `{HanTables} (st : State) : Prop := pools_small st /\ log_inv st.

(** The column a requery predicate ranges over: the field of the given
    descriptor, taken as the primary key. *)
Definition keyColumn (pkField : option schemapb.FieldSchema) : planpb.ColumnInfo := {|
  planpb.FieldId := schemapb.GetFieldID pkField;
  planpb.DataType := schemapb.GetDataType pkField;
  planpb.IsPrimaryKey := true;
  planpb.IsAutoID := schemapb.GetAutoID pkField;
  planpb.IsPartitionKey := schemapb.GetIsPartitionKey pkField
|}.

(** ** Sample collaborators, used to run the definitions on concrete inputs *)

Module Sample.

(** The escape set and encoding of the parser's utilities: backslash, the
    letters n, t, r, f and the two quotes; a Han rune is written as a
    backslash, the letter u and its code point in four or more hex digits. *)
Definition hexDigit (d : Z) : ascii :=
  if d <? 10 then zbyte (48 + d) else zbyte (87 + d).

Fixpoint hexFrom (fuel : nat) (width : nat) (r : Z) (acc : string) : string :=
  match fuel with
  | O => acc
  | S k =>
    if (r =? 0) && (width =? 0)%nat then acc
    else hexFrom k (Nat.pred width) (r / 16) (String (hexDigit (r mod 16)) acc)
  end.

Definition stdEscapeCh (ch : ascii) : bool :=
  let c := byteZ ch in
  (c =? 92) || (c =? 110) || (c =? 116) || (c =? 114) || (c =? 102)
  || (c =? 34) || (c =? 39).

Definition stdHan (r : Z) : bool :=
  ((0x2E80 <=? r) && (r <=? 0x2FD5)) || ((0x3005 <=? r) && (r <=? 0x303B))
  || ((0x3400 <=? r) && (r <=? 0x4DBF)) || ((0x4E00 <=? r) && (r <=? 0x9FFF))
  || ((0xF900 <=? r) && (r <=? 0xFAD9)) || ((0x20000 <=? r) && (r <=? 0x323AF)).

Definition stdTables : HanTables := {|
  isEscapeCh := stdEscapeCh;
  formatUnicode := fun r => String (zbyte 92) (String (zbyte 117) (hexFrom 8 4 r EmptyString));
  isHan := stdHan
|}.

(** A toy grammar over a handful of expression strings. *)
Definition toyParse (s : string) : string * option error :=
  if String.eqb s "(" then (s, Some (ErrorString "mismatched input")) else (s, None).

Definition toyEOF (s : string) : bool := negb (String.eqb s "age age").

Definition ageColumn : planpb.ColumnInfo := {|
  planpb.FieldId := 101; planpb.DataType := schemapb.DataType_Int64;
  planpb.IsPrimaryKey := false; planpb.IsAutoID := false;
  planpb.IsPartitionKey := false
|}.

Definition toyVisit (_ : SchemaHelper) (ast : string) : VisitResult :=
  if String.eqb ast "age" then VTyped (planpb.Expr_ColumnExpr ageColumn) schemapb.DataType_Int64
  else if String.eqb ast "{flag}" then
    VTyped (planpb.Expr_TemplateValue "flag" schemapb.DataType_Bool) schemapb.DataType_Bool
  else if String.eqb ast "true" then
    VTyped (planpb.Expr_ValueExpr (planpb.GenericValue_BoolVal true)) schemapb.DataType_Bool
  else VError (ErrorString "field not found").

Definition grammar : Grammar := {|
  AST := string;
  lexerReports := fun _ => None;
  parserReports := fun _ => None;
  parseExpr := toyParse;
  currentTokenIsEOF := toyEOF;
  visit := toyVisit
|}.

Definition templates : Templates := {|
  TemplateValue := planpb.GenericValue;
  unmarshalValue := inr;
  compatible := fun t v =>
    match v with
    | planpb.GenericValue_BoolVal _ => t =? schemapb.DataType_Bool
    | planpb.GenericValue_Int64Val _ => t =? schemapb.DataType_Int64
    | planpb.GenericValue_StringVal _ => t =? schemapb.DataType_VarChar
    end
|}.

(** The vector-type predicate that accepts exactly the five mapped types. *)
Definition typeutil : TypeUtil := {| IsVectorType := isFive |}.

Definition field (id : Z) (name : string) (t : schemapb.DataType) : schemapb.FieldSchema := {|
  schemapb.FieldID := id; schemapb.Name := name; schemapb.IsPrimaryKey := false;
  schemapb.FieldDataType := t; schemapb.AutoID := false;
  schemapb.IsPartitionKey := false
|}.

Definition pk : schemapb.FieldSchema := {|
  schemapb.FieldID := 100; schemapb.Name := "id"; schemapb.IsPrimaryKey := true;
  schemapb.FieldDataType := schemapb.DataType_Int64; schemapb.AutoID := true;
  schemapb.IsPartitionKey := false
|}.

(** A collection with one field of every vector type and a scalar field;
    all fields but "cold" are loaded. *)
Definition schema : SchemaHelper := {|
  GetCollectionName := "books";
  GetFieldFromName := fun name =>
    if String.eqb name "bin" then inr (field 200 "bin" schemapb.DataType_BinaryVector)
    else if String.eqb name "f32" then inr (field 201 "f32" schemapb.DataType_FloatVector)
    else if String.eqb name "f16" then inr (field 202 "f16" schemapb.DataType_Float16Vector)
    else if String.eqb name "bf16" then inr (field 203 "bf16" schemapb.DataType_BFloat16Vector)
    else if String.eqb name "sparse" then inr (field 204 "sparse" schemapb.DataType_SparseFloatVector)
    else if String.eqb name "cold" then inr (field 206 "cold" schemapb.DataType_FloatVector)
    else if String.eqb name "age" then inr (field 101 "age" schemapb.DataType_Int64)
    else inl (ErrorString "field not found");
  IsFieldLoaded := fun id => negb (id =? 206)
|}.

Definition queryInfo : planpb.QueryInfo := {|
  planpb.Topk := 10; planpb.MetricType := "L2";
  planpb.SearchParams := "{}"; planpb.RoundDecimal := -1
|}.

(** The bytes of U+6C49 followed by two backslashes and the letter x. *)
Definition han_bs_bs_x : string :=
  String (zbyte 0xE6) (String (zbyte 0xB1) (String (zbyte 0x89) "\\x")).

End Sample.

(** * Properties *)

(** ** The normalizer *)

Lemma append_empty_r (s : string) : (s ++ "")%string = s.
Proof.
  induction s as [|c s IH]; [reflexivity |].
  change (String c (s ++ "")%string = String c s). now rewrite IH.
Qed.

Lemma append_assoc (a b c : string) : ((a ++ b) ++ c)%string = (a ++ (b ++ c))%string.
Proof.
  induction a as [|x a IH]; [reflexivity |].
  change (String x ((a ++ b) ++ c)%string = String x (a ++ (b ++ c))%string).
  now rewrite IH.
Qed.

Lemma byteZ_range (c : ascii) : 0 <= byteZ c < 256.
Proof. unfold byteZ. pose proof (N_ascii_bounded c). lia. Qed.

Lemma zbyte_byteZ (c : ascii) : zbyte (byteZ c) = c.
Proof.
  unfold zbyte. rewrite Z.mod_small by apply byteZ_range.
  unfold byteZ. rewrite N2Z.id. apply ascii_N_embedding.
Qed.

Lemma decodeRune_ascii (c : ascii) (rest : string) :
  byteZ c < 0x80 -> decodeRune (String c rest) = (byteZ c, 1%nat).
Proof.
  intros Hc. unfold decodeRune.
  destruct (byteZ c <? 0x80) eqn:E; [reflexivity | apply Z.ltb_ge in E; lia].
Qed.

Lemma encodeRune_ascii (c : ascii) :
  byteZ c < 0x80 -> encodeRune (byteZ c) = String c EmptyString.
Proof.
  intros Hc. unfold encodeRune. pose proof (byteZ_range c) as Hr.
  replace (0 <=? byteZ c) with true by (symmetry; apply Z.leb_le; lia).
  replace (byteZ c <=? 0x7F) with true by (symmetry; apply Z.leb_le; lia).
  simpl. now rewrite zbyte_byteZ.
Qed.

Section NormalizerFacts.
Context `{HanTables}.
Hypothesis Han_above_ASCII : forall r, 0 <= r < 0x80 -> isHan r = false.

(** On ASCII input the loop copies byte by byte, so whichever way it ends,
    by the early return or by running out of input, the result is [s]. *)
Lemma hanLoop_ascii (s : string) (n : nat) :
  forall (rest pre : string) (i : nat) (skipCur : bool),
    isASCII rest = true ->
    s = (pre ++ rest)%string ->
    hanLoop s n (rangeFrom i 0 rest) skipCur pre = s.
Proof.
  induction rest as [|c rest IH]; intros pre i skipCur Hascii Hs.
  - simpl. now rewrite Hs, append_empty_r.
  - simpl in Hascii. apply andb_true_iff in Hascii as [Hc Hrest].
    apply Z.ltb_lt in Hc.
    cbn [rangeFrom]. rewrite (decodeRune_ascii c rest Hc). cbn [Nat.pred hanLoop].
    rewrite (encodeRune_ascii c Hc).
    assert (Hs' : s = ((pre ++ String c "") ++ rest)%string)
      by (rewrite append_assoc; exact Hs).
    rewrite (Han_above_ASCII (byteZ c)) by (pose proof (byteZ_range c); lia).
    destruct skipCur; [now apply IH |].
    destruct (byteZ c =? backslash); [| now apply IH].
    match goal with |- (if ?b then _ else _) = _ => destruct b end;
      [reflexivity | now apply IH].
Qed.

End NormalizerFacts.

(** C9: on every ASCII-only string the normalizer is the identity, and so it
    is idempotent wherever its own output is ASCII-only: normalizing that
    output again changes nothing. The [unicode.Han] table is taken to hold no
    ASCII code point. *)
Theorem convertHanToASCII_ascii_identity `{HanTables} :
  (forall r, 0 <= r < 0x80 -> isHan r = false) ->
  (forall s, isASCII s = true -> convertHanToASCII s = s) /\
  (forall s, isASCII s = true ->
     convertHanToASCII (convertHanToASCII s) = convertHanToASCII s) /\
  (forall s, isASCII (convertHanToASCII s) = true ->
     convertHanToASCII (convertHanToASCII s) = convertHanToASCII s).
Proof.
  intros HHan.
  assert (Hid : forall s, isASCII s = true -> convertHanToASCII s = s).
  { intros s Hs. unfold convertHanToASCII, rangeString.
    now apply hanLoop_ascii. }
  split; [exact Hid | split].
  - intros s Hs. now rewrite !(Hid s Hs).
  - intros s Hs. now apply Hid.
Qed.

Lemma convertHanToASCII_ascii_identity_witness :
  @convertHanToASCII Sample.stdTables "name == \n" = "name == \n"%string.
Proof.
  refine (proj1 (@convertHanToASCII_ascii_identity Sample.stdTables _) _ _).
  - intros r Hr. cbn. unfold Sample.stdHan. lia.
  - vm_compute. reflexivity.
Defined.

Lemma hanLoop_bad_escape `{HanTables} (s : string) (i : nat) (c : ascii) :
  (i + 1 < len s)%nat ->
  index s (i + 1) = Some c ->
  isEscapeCh c = false ->
  forall (items : list (nat * Z)) (skipCur : bool) (builder : string),
    opensEscape items skipCur i = true ->
    hanLoop s (len s) items skipCur builder = s.
Proof.
  intros Hlt Hget Hesc.
  induction items as [|[j r] items IH]; intros skipCur builder Hopen.
  - discriminate.
  - cbn [opensEscape] in Hopen. cbn [hanLoop].
    destruct skipCur; [now apply IH |].
    destruct (r =? backslash); [| destruct (isHan r); now apply IH].
    destruct ((j + 1 <? len s)%nat && negb (from_option isEscapeCh true (index s (j + 1))))
      eqn:Hguard; [reflexivity |].
    apply orb_true_iff in Hopen as [Hji | Hrest]; [| now apply IH].
    apply Nat.eqb_eq in Hji. subst j.
    rewrite Hget in Hguard. cbn [from_option] in Hguard. rewrite Hesc in Hguard.
    apply Nat.ltb_lt in Hlt. rewrite Hlt in Hguard. discriminate.
Qed.

(** C5, as amended: when a backslash that opens an escape (one that is not
    itself the escaped character of the backslash before it) is immediately
    followed by a byte outside the escape set, the normalizer returns its
    input unchanged. *)
Theorem convertHanToASCII_bad_escape `{HanTables} (s : string) (i : nat) (c : ascii) :
  opensEscape (rangeString s) false i = true ->
  index s (i + 1) = Some c ->
  isEscapeCh c = false ->
  convertHanToASCII s = s.
Proof.
  intros Hopen Hget Hesc. unfold convertHanToASCII.
  apply (hanLoop_bad_escape s i c); try assumption.
  unfold index in Hget. unfold len.
  destruct (lt_dec (i + 1) (String.length s)) as [Hlt | Hge]; [exact Hlt |].
  exfalso. revert Hget Hge. generalize (i + 1)%nat. clear.
  induction s as [|x s IH]; intros [|k]; cbn; try discriminate; try lia.
  intros Hget Hge. apply (IH k Hget). lia.
Qed.

Lemma convertHanToASCII_bad_escape_witness :
  @convertHanToASCII Sample.stdTables (Sample.han_bs_bs_x ++ "\a") =
    (Sample.han_bs_bs_x ++ "\a")%string.
Proof.
  apply (@convertHanToASCII_bad_escape Sample.stdTables _ 6%nat "a"%char);
    vm_compute; reflexivity.
Defined.

(** C5, as stated, fails: the second backslash below is followed by the
    letter x, which is no escape character, but that backslash is itself
    escaped by the first, and the Han rune in front is rewritten. *)
Lemma convertHanToASCII_bad_escape_counterexample :
  ~ (forall s, @hasBadEscape Sample.stdTables s ->
               @convertHanToASCII Sample.stdTables s = s).
Proof.
  intros Hall.
  specialize (Hall Sample.han_bs_bs_x).
  assert (Hbad : @hasBadEscape Sample.stdTables Sample.han_bs_bs_x).
  { exists 4%nat, "x"%char. vm_compute. repeat split. }
  apply Hall in Hbad. vm_compute in Hbad. discriminate Hbad.
Qed.

(** ** The requery plan *)

(** C8: for a primary-key field descriptor and the ids 1, 2, 3 the requery
    plan is a query node whose predicate is a term expression over the
    primary-key column (the descriptor's field id, data type, auto-id and
    partition-key flags, flagged as primary key) with the values Int64 1, 2, 3
    in order, limit 3 and no count. For every input the result is such a
    query node (there is no error result) over the key column, with one value
    per id, the ids in order and tagged by the kind of the list, the limit
    equal to the number of ids and the count flag off; with no id variant
    present the value list is empty and the limit zero. *)
Theorem CreateRequeryPlan_values :
  (forall f : schemapb.FieldSchema,
     CreateRequeryPlan (Some f) (intIDs [1; 2; 3]) =
     planpb.PlanNode_Query {|
       planpb.Predicates := Some (planpb.ExprNew (planpb.Expr_TermExpr
         {| planpb.FieldId := schemapb.FieldID f;
            planpb.DataType := schemapb.FieldDataType f;
            planpb.IsPrimaryKey := true;
            planpb.IsAutoID := schemapb.AutoID f;
            planpb.IsPartitionKey := schemapb.IsPartitionKey f |}
         [planpb.GenericValue_Int64Val 1; planpb.GenericValue_Int64Val 2;
          planpb.GenericValue_Int64Val 3]));
       planpb.IsCount := false;
       planpb.Limit := 3 |}) /\
  (forall pkField ids,
     exists values,
       CreateRequeryPlan pkField ids =
       planpb.PlanNode_Query {|
         planpb.Predicates := Some (planpb.ExprNew
           (planpb.Expr_TermExpr (keyColumn pkField) values));
         planpb.IsCount := false;
         planpb.Limit := Z.of_nat (idCount ids) |} /\
       length values = idCount ids /\
       (forall l, schemapb.GetIdField ids = Some (schemapb.IDs_IntId (Some l)) ->
                  values = map planpb.GenericValue_Int64Val l) /\
       (forall l, schemapb.GetIdField ids = Some (schemapb.IDs_StrId (Some l)) ->
                  values = map planpb.GenericValue_StringVal l)) /\
  (forall pkField ids,
     schemapb.GetIdField ids = None ->
     CreateRequeryPlan pkField ids =
     planpb.PlanNode_Query {|
       planpb.Predicates := Some (planpb.ExprNew
         (planpb.Expr_TermExpr (keyColumn pkField) []));
       planpb.IsCount := false;
       planpb.Limit := 0 |}).
Proof.
  split; [| split].
  - intros f. reflexivity.
  - intros pkField ids. unfold CreateRequeryPlan, idCount, keyColumn.
    destruct ids as [[[[a|a]|]]|]; cbn;
      unfold schemapb.GetIntId, schemapb.GetStrId; cbn.
    + exists (map planpb.GenericValue_Int64Val (schemapb.GetData a)).
      split; [now rewrite length_map | split; [apply length_map | split]];
        [intros l [= ->]; reflexivity | discriminate].
    + exists (map planpb.GenericValue_StringVal (schemapb.GetData a)).
      split; [now rewrite length_map | split; [apply length_map | split]];
        [discriminate | intros l [= ->]; reflexivity].
    + exists []. split; [reflexivity | split; [reflexivity | split]]; discriminate.
    + exists []. split; [reflexivity | split; [reflexivity | split]]; discriminate.
  - intros pkField ids Hnone. unfold CreateRequeryPlan, keyColumn. now rewrite Hnone.
Qed.

Lemma CreateRequeryPlan_values_witness :
  CreateRequeryPlan (Some Sample.pk) None =
  planpb.PlanNode_Query {|
    planpb.Predicates := Some (planpb.ExprNew
      (planpb.Expr_TermExpr (keyColumn (Some Sample.pk)) []));
    planpb.IsCount := false;
    planpb.Limit := 0 |}.
Proof.
  apply (proj2 (proj2 CreateRequeryPlan_values) (Some Sample.pk) None).
  reflexivity.
Defined.

(** C10: whatever the field descriptor and the id list, the column of the
    requery predicate is flagged as primary key, also when the descriptor is
    not, and takes its field id, data type, auto-id flag and partition-key
    flag from the descriptor. *)
Theorem CreateRequeryPlan_column :
  forall (pkField : option schemapb.FieldSchema) (ids : option schemapb.IDs),
    exists col values,
      termOf (CreateRequeryPlan pkField ids) = Some (col, values) /\
      planpb.IsPrimaryKey col = true /\
      planpb.FieldId col = schemapb.GetFieldID pkField /\
      planpb.DataType col = schemapb.GetDataType pkField /\
      planpb.IsAutoID col = schemapb.GetAutoID pkField /\
      planpb.IsPartitionKey col = schemapb.GetIsPartitionKey pkField.
Proof.
  intros pkField ids. unfold CreateRequeryPlan. cbn.
  do 2 eexists. repeat split.
Qed.

(** The flag is set for a descriptor that is not marked as primary key. *)
Example CreateRequeryPlan_column_not_pk :
  schemapb.IsPrimaryKey (Sample.field 101 "age" schemapb.DataType_Int64) = false /\
  (fst <$> termOf (CreateRequeryPlan
      (Some (Sample.field 101 "age" schemapb.DataType_Int64)) (intIDs [7])))
  = Some {| planpb.FieldId := 101; planpb.DataType := schemapb.DataType_Int64;
            planpb.IsPrimaryKey := true; planpb.IsAutoID := false;
            planpb.IsPartitionKey := false |}.
Proof. split; reflexivity. Qed.

(** ** The search plan *)

Section SearchFacts.
Context `{HanTables} `{Grammar} `{Templates} `{TypeUtil}.


End SearchFacts.


(** ** The lexer and parser pools *)

Section PoolFacts.
Context `{HanTables} `{Grammar} `{Templates} `{TypeUtil}.

(** C2, as amended: in a compile that runs the grammar stages, the acquired
    lexer and parser are back in the pool afterwards exactly when the four
    grammar stages pass, whatever the visitor then answers; when one of the
    four stages fails, what was acquired is not put back. *)
Theorem handleExprWithErrorListener_pool {L} `{errorListener L}
    (schema : SchemaHelper) (exprStr : string) (listener : L) (st : State) :
  pools_wf st ->
  isEmptyExpression exprStr = false ->
  let st' := snd (handleExprWithErrorListener schema exprStr listener st) in
  (grammarStagesPass exprStr listener = true ->
     (acquiredLexer exprStr st ∈ lexerPool st') /\
     (acquiredParser exprStr st ∈ parserPool st')) /\
  (grammarStagesPass exprStr listener = false ->
     (acquiredLexer exprStr st ∉ lexerPool st') /\
     (lexerStagePasses exprStr listener = true ->
      acquiredParser exprStr st ∉ parserPool st')).
Proof.
  intros [Hl Hp] Hne.
  unfold handleExprWithErrorListener, grammarStagesPass, lexerStagePasses,
    acquiredLexer, acquiredParser.
  rewrite Hne. unfold bind, getLexer, getParser, putLexer, putParser, modify, ret.
  destruct (parseExpr exprStr) as [ast reported]. cbn [snd].
  assert (Hl' : forall l rest, lexerPool st = l :: rest -> l ∉ rest)
    by (intros l rest E; rewrite E in Hl; now apply NoDup_cons in Hl as [? _]).
  assert (Hp' : forall p rest, parserPool st = p :: rest -> p ∉ rest)
    by (intros p rest E; rewrite E in Hp; now apply NoDup_cons in Hp as [? _]).
  destruct (lexerPool st) as [|l ls] eqn:El; destruct (parserPool st) as [|p ps] eqn:Ep;
    cbn; rewrite ?El, ?Ep;
    repeat match goal with
           | |- context [match Error ?x with _ => _ end] =>
             destruct (Error x) eqn:?; cbn; rewrite ?El, ?Ep; cbn
           end;
    try (destruct (currentTokenIsEOF exprStr); cbn);
    try (destruct (visit schema ast); cbn);
    (split; intros Hcase; try discriminate Hcase;
     lazymatch goal with
     | |- (_ ∈ _) /\ _ => split; apply list_elem_of_here
     | |- _ =>
       split; [| intros Hlex; try discriminate Hlex];
       first [ apply not_elem_of_nil | now apply Hl' | now apply Hp' ]
     end).
Qed.

End PoolFacts.

Lemma handleExprWithErrorListener_pool_witness :
  let st' := snd (@handleExprWithErrorListener Sample.grammar _ _
                    Sample.schema "age" {| err := None |} initState) in
  (@grammarStagesPass Sample.grammar _ _ "age" {| err := None |} = true ->
     (@acquiredLexer "age" initState ∈ lexerPool st') /\
     (@acquiredParser "age" initState ∈ parserPool st')) /\
  (@grammarStagesPass Sample.grammar _ _ "age" {| err := None |} = false ->
     (@acquiredLexer "age" initState ∉ lexerPool st') /\
     (@lexerStagePasses Sample.grammar _ _ "age" {| err := None |} = true ->
      @acquiredParser "age" initState ∉ parserPool st')).
Proof.
  apply (@handleExprWithErrorListener_pool Sample.grammar _ _
           Sample.schema "age" {| err := None |} initState).
  - split; apply NoDup_nil_2.
  - reflexivity.
Defined.

(** C2, as stated, fails: the visitor rejects "price", so the compile ends in
    an error, and yet the lexer and the parser it acquired are in the pool. *)
Lemma handleExprWithErrorListener_pool_counterexample :
  let '(out, st') := @handleExprWithErrorListener Sample.grammar _ _
                       Sample.schema "price" {| err := None |} initState in
  pools_wf initState /\
  isEmptyExpression "price" = false /\
  is_Some (getError out) /\
  (acquiredLexer "price" initState ∈ lexerPool st') /\
  (acquiredParser "price" initState ∈ parserPool st').
Proof.
  vm_compute. repeat split; try apply NoDup_nil_2; eauto; constructor.
Qed.

(** ** The result cache *)

Lemma set_exprCache_id (st : State) : set_exprCache (exprCache st) st = st.
Proof. now destruct st. Qed.

Module CacheFacts.
Import expirable.

Lemma find_key (k : exprParseKey) (c : list CacheEntry) (e : CacheEntry) :
  find k c = Some e -> Key e = k.
Proof.
  induction c as [|x c IH]; cbn; [discriminate |].
  destruct (decide (Key x = k)) as [Hk | Hk]; [| exact IH].
  intros [= <-]. exact Hk.
Qed.

Lemma find_elem (k : exprParseKey) (c : list CacheEntry) (e : CacheEntry) :
  find k c = Some e -> e ∈ c.
Proof.
  induction c as [|x c IH]; cbn; [discriminate |].
  destruct (decide (Key x = k)); [intros [= <-]; left | intros Hf; right; auto].
Qed.

Lemma find_head (e : CacheEntry) (c : list CacheEntry) : find (Key e) (e :: c) = Some e.
Proof. cbn. now rewrite decide_True. Qed.

Lemma remove_elem (k : exprParseKey) (c : list CacheEntry) (e : CacheEntry) :
  e ∈ remove k c -> e ∈ c.
Proof.
  induction c as [|x c IH]; cbn; [easy |].
  destruct (decide (Key x = k)); [right; auto |].
  intros [-> | Hin]%elem_of_cons; [left | right; auto].
Qed.

Lemma removelast_elem (c : list CacheEntry) (e : CacheEntry) :
  e ∈ removelast c -> e ∈ c.
Proof.
  induction c as [|x c IH]; cbn; [easy |].
  destruct c as [|y c]; [intros Hin; now apply not_elem_of_nil in Hin |].
  intros [-> | Hin]%elem_of_cons; [left | right; auto].
Qed.

(** What [Get] answers on a hit. *)
Lemma Get_hit (now : Z) (k : exprParseKey) (c : list CacheEntry) (e : CacheEntry) :
  find k c = Some e -> now <= ExpiresAt e ->
  Get now k c = (Some (Value e), e :: remove k c).
Proof.
  intros Hf Hlive. unfold Get. rewrite Hf.
  destruct (ExpiresAt e <? now) eqn:E; [apply Z.ltb_lt in E; lia | reflexivity].
Qed.

Lemma Get_some (now : Z) (k : exprParseKey) (c c' : list CacheEntry) (v : Outcome) :
  Get now k c = (Some v, c') ->
  exists e, find k c = Some e /\ now <= ExpiresAt e /\ Value e = v /\ c' = e :: remove k c.
Proof.
  unfold Get. destruct (find k c) as [e|]; [| discriminate].
  destruct (ExpiresAt e <? now) eqn:E; [discriminate |].
  intros [= <- <-]. apply Z.ltb_ge in E. now exists e.
Qed.

Lemma Get_none (now : Z) (k : exprParseKey) (c c' : list CacheEntry) :
  Get now k c = (None, c') -> c' = c.
Proof.
  unfold Get. destruct (find k c) as [e|]; [| now intros [= <-]].
  destruct (ExpiresAt e <? now); [now intros [= <-] | discriminate].
Qed.

(** After [Add] the key is bound to the value just added, expiring one [ttl]
    from now, also when the cache was full. *)
Lemma Add_find (now : Z) (k : exprParseKey) (v : Outcome) (c : list CacheEntry) :
  find k (Add now k v c) = Some {| Key := k; Value := v; ExpiresAt := now + ttl |}.
Proof.
  unfold Add. destruct (find k c).
  - apply (find_head {| Key := k; Value := v; ExpiresAt := now + ttl |}).
  - destruct (size <? length _)%nat eqn:E.
    + destruct c as [|x c]; [cbn in E; discriminate |].
      change (removelast (?e :: x :: c)) with (e :: removelast (x :: c)).
      apply (find_head {| Key := k; Value := v; ExpiresAt := now + ttl |}).
    + apply (find_head {| Key := k; Value := v; ExpiresAt := now + ttl |}).
Qed.

Lemma Add_elem (now : Z) (k : exprParseKey) (v : Outcome) (c : list CacheEntry)
    (e : CacheEntry) :
  e ∈ Add now k v c ->
  e = {| Key := k; Value := v; ExpiresAt := now + ttl |} \/ e ∈ c.
Proof.
  unfold Add. destruct (find k c).
  - intros [-> | Hin]%elem_of_cons; [now left | right; eauto using remove_elem].
  - destruct (size <? length _)%nat.
    + intros Hin%removelast_elem. apply elem_of_cons in Hin as [-> | Hin]; auto.
    + intros [-> | Hin]%elem_of_cons; auto.
Qed.

End CacheFacts.

Section PipelineFacts.
Context `{HanTables} `{Grammar} `{Templates} `{TypeUtil}.
Import expirable CacheFacts.

(** The grammar run leaves the cache and the clock alone and only ever adds
    to the store. *)
Lemma handleExprWithErrorListener_frame {L} `{errorListener L}
    (schema : SchemaHelper) (exprStr : string) (listener : L) (st : State) :
  let st' := snd (handleExprWithErrorListener schema exprStr listener st) in
  exprCache st' = exprCache st /\ clock st' = clock st /\
  exists ext, heap st' = heap st ++ ext.
Proof.
  unfold handleExprWithErrorListener.
  destruct (isEmptyExpression exprStr).
  { cbn. repeat split. now eexists. }
  unfold bind, getLexer, getParser, putLexer, putParser, modify, ret.
  destruct (parseExpr exprStr) as [ast reported].
  destruct (lexerPool st) as [|l ls] eqn:El; destruct (parserPool st) as [|p ps] eqn:Ep;
    cbn; rewrite ?El, ?Ep;
    repeat match goal with
           | |- context [match Error ?x with _ => _ end] =>
             destruct (Error x) eqn:?; cbn; rewrite ?El, ?Ep; cbn
           end;
    try (destruct (currentTokenIsEOF exprStr); cbn);
    try (destruct (visit schema ast); cbn);
    repeat split; solve [now eexists | exists []; now rewrite app_nil_r].
Qed.

(** The empty expression never reaches the grammar. *)
Lemma handleExprWithErrorListener_empty {L} `{errorListener L}
    (schema : SchemaHelper) (listener : L) (st : State) :
  handleExprWithErrorListener schema EmptyString listener st
  = (OExpr {| expr := length (heap st); dataType := schemapb.DataType_Bool |},
     set_heap (heap st ++ [alwaysTrueExpr]) st).
Proof. reflexivity. Qed.

Lemma handleExpr_hit (schema : SchemaHelper) (exprStr : string) (st : State)
    (e : CacheEntry) :
  find (keyOf schema exprStr) (exprCache st) = Some e ->
  clock st <= ExpiresAt e ->
  handleExpr schema exprStr st
  = (Value e, set_exprCache (e :: remove (keyOf schema exprStr) (exprCache st)) st).
Proof.
  intros Hf Hlive. unfold handleExpr, bind, exprCacheGet. fold (keyOf schema exprStr).
  now rewrite (Get_hit _ _ _ _ Hf Hlive).
Qed.

Lemma handleExpr_miss (schema : SchemaHelper) (exprStr : string) (st : State) :
  fst (Get (clock st) (keyOf schema exprStr) (exprCache st)) = None ->
  handleExpr schema exprStr st
  = let '(val, st1) :=
        handleExprWithErrorListener schema (convertHanToASCII exprStr) {| err := None |} st in
    (val, set_exprCache (Add (clock st1) (keyOf schema exprStr) val (exprCache st1)) st1).
Proof.
  intros Hmiss. unfold handleExpr, bind, exprCacheGet, exprCacheAdd, modify, ret.
  fold (keyOf schema exprStr).
  destruct (Get (clock st) (keyOf schema exprStr) (exprCache st)) as [o c] eqn:EG.
  cbn in Hmiss. subst o. apply Get_none in EG. subst c. rewrite set_exprCache_id.
  now destruct (handleExprWithErrorListener _ _ _ st).
Qed.

(** After [handleExpr] the key is bound, in the cache, to the outcome that was
    returned, and the binding is live at the current time. *)
Lemma handleExpr_stored (schema : SchemaHelper) (exprStr : string) (st : State) :
  let '(val, st1) := handleExpr schema exprStr st in
  clock st1 = clock st /\
  exists e, find (keyOf schema exprStr) (exprCache st1) = Some e /\
            Value e = val /\ clock st1 <= ExpiresAt e.
Proof.
  destruct (Get (clock st) (keyOf schema exprStr) (exprCache st)) as [[v|] c] eqn:EG.
  - apply Get_some in EG as (e & Hf & Hlive & <- & ->).
    rewrite (handleExpr_hit _ _ _ _ Hf Hlive). cbn. split; [reflexivity |].
    exists e. repeat split; [| exact Hlive].
    pose proof (find_head e (remove (keyOf schema exprStr) (exprCache st))) as Hh.
    now rewrite (find_key _ _ _ Hf) in Hh.
  - rewrite handleExpr_miss by now rewrite EG.
    pose proof (handleExprWithErrorListener_frame schema (convertHanToASCII exprStr)
                  {| err := None |} st) as (Hc & Hclk & _).
    destruct (handleExprWithErrorListener _ _ _ st) as [val st1]. cbn in *.
    split; [exact Hclk |]. eexists. rewrite Add_find. cbn.
    split; [reflexivity | split; [reflexivity |]]. cbn. unfold ttl. lia.
Qed.

End PipelineFacts.

Section CacheHit.
Context `{HanTables} `{Grammar} `{Templates} `{TypeUtil}.
Import expirable CacheFacts.

Lemma FillExpressionValue_sameButHeap (a : nat) (vm : gmap string planpb.GenericValue)
    (st : State) :
  sameButHeap (snd (FillExpressionValue a vm st)) st.
Proof.
  unfold FillExpressionValue, sameButHeap.
  destruct (heap st !! a) as [e|]; [destruct (fillExpr vm e) |]; cbn; tauto.
Qed.

(** Beyond what [handleExpr] does, [ParseExpr] touches only the store. *)
Lemma ParseExpr_sameButHeap (schema : SchemaHelper) (exprStr : string)
    (tv : gmap string TemplateValue) (st : State) :
  sameButHeap (snd (ParseExpr schema exprStr tv st)) (snd (handleExpr schema exprStr st)).
Proof.
  unfold ParseExpr, bind.
  destruct (handleExpr schema exprStr st) as [val st1]. cbn [snd].
  assert (Hrefl : sameButHeap st1 st1) by (unfold sameButHeap; tauto).
  destruct (getError val); [exact Hrefl |].
  destruct (getExpr val) as [predicate|]; [| exact Hrefl].
  destruct (negb (canBeExecuted predicate)); [exact Hrefl |].
  destruct (UnmarshalExpressionValues tv) as [e | vm]; [exact Hrefl |].
  pose proof (FillExpressionValue_sameButHeap (expr predicate) vm st1) as Hfill.
  destruct (FillExpressionValue (expr predicate) vm st1) as [[e|] st2]; exact Hfill.
Qed.

(** A second [handleExpr] under the same key, at a time at which the entry
    has not expired, answers from the cache: whatever else the state holds. *)
Lemma handleExpr_again (schema schema' : SchemaHelper) (exprStr : string)
    (st st' : State) :
  GetCollectionName schema' = GetCollectionName schema ->
  exprCache st' = exprCache (snd (handleExpr schema exprStr st)) ->
  (forall e, find (keyOf schema exprStr) (exprCache st') = Some e ->
             clock st' <= ExpiresAt e) ->
  fst (handleExpr schema' exprStr st') = fst (handleExpr schema exprStr st) /\
  grammarLog (snd (handleExpr schema' exprStr st')) = grammarLog st' /\
  heap (snd (handleExpr schema' exprStr st')) = heap st' /\
  lexerPool (snd (handleExpr schema' exprStr st')) = lexerPool st' /\
  parserPool (snd (handleExpr schema' exprStr st')) = parserPool st'.
Proof.
  intros Hname Hcache Hlive.
  pose proof (handleExpr_stored schema exprStr st) as Hstored.
  destruct (handleExpr schema exprStr st) as [v1 st1]. cbn [fst snd] in *.
  destruct Hstored as (_ & e & Hf & Hv & _).
  assert (Hkey : keyOf schema' exprStr = keyOf schema exprStr)
    by (unfold keyOf; now rewrite Hname).
  rewrite <- Hcache in Hf.
  rewrite (handleExpr_hit schema' exprStr st' e); rewrite ?Hkey; auto.
Qed.

(** C4: the outcome [handleExpr] returns, an error just as well as a typed
    expression, is stored under the key (collection name, expression string);
    a following call under the same key, made before the entry expires,
    returns that very outcome from the cache and makes no call to the grammar
    collaborator, touching neither the pools nor the store. The same holds
    between two [ParseExpr] calls: the second works from the outcome the first
    one worked from and makes no grammar call. *)
Theorem handleExpr_cached_outcome (schema schema' : SchemaHelper) (exprStr : string)
    (tv tv' : gmap string TemplateValue) (st : State) (t2 : Z) :
  let key := keyOf schema exprStr in
  let v1 := fst (handleExpr schema exprStr st) in
  let st1 := snd (handleExpr schema exprStr st) in
  let sp := set_clock t2 (snd (ParseExpr schema exprStr tv st)) in
  GetCollectionName schema' = GetCollectionName schema ->
  (forall e, find key (exprCache st1) = Some e -> t2 <= ExpiresAt e) ->
  (exists e, find key (exprCache st1) = Some e /\ Value e = v1) /\
  (let again := handleExpr schema' exprStr (set_clock t2 st1) in
   fst again = v1 /\ grammarLog (snd again) = grammarLog st1 /\
   heap (snd again) = heap st1 /\
   lexerPool (snd again) = lexerPool st1 /\ parserPool (snd again) = parserPool st1) /\
  (fst (handleExpr schema' exprStr sp) = v1 /\
   grammarLog (snd (ParseExpr schema' exprStr tv' sp)) = grammarLog sp /\
   lexerPool (snd (ParseExpr schema' exprStr tv' sp)) = lexerPool sp /\
   parserPool (snd (ParseExpr schema' exprStr tv' sp)) = parserPool sp).
Proof.
  intros key v1 st1 sp Hname Hlive. subst key v1 st1. split; [| split].
  - pose proof (handleExpr_stored schema exprStr st) as Hstored.
    destruct (handleExpr schema exprStr st) as [v1 st1].
    destruct Hstored as (_ & e & Hf & Hv & _). now exists e.
  - pose proof (handleExpr_again schema schema' exprStr st
                  (set_clock t2 (snd (handleExpr schema exprStr st))) Hname eq_refl Hlive)
      as Hagain.
    exact Hagain.
  - pose proof (ParseExpr_sameButHeap schema exprStr tv st) as (Hc & _).
    assert (Hsp : exprCache sp = exprCache (snd (handleExpr schema exprStr st)))
      by exact Hc.
    assert (Hlive' : forall e, find (keyOf schema exprStr) (exprCache sp) = Some e ->
                               clock sp <= ExpiresAt e)
      by (intros e; rewrite Hsp; apply Hlive).
    destruct (handleExpr_again schema schema' exprStr st sp Hname Hsp Hlive')
      as (Hv & Hlog & _ & Hlp & Hpp).
    pose proof (ParseExpr_sameButHeap schema' exprStr tv' sp) as (_ & _ & Hl2 & Hlp2 & Hpp2 & _).
    repeat split; congruence.
Qed.

End CacheHit.

Lemma handleExpr_cached_outcome_witness :
  let st1 := snd (@handleExpr Sample.stdTables Sample.grammar Sample.schema "(" initState) in
  fst (@handleExpr Sample.stdTables Sample.grammar Sample.schema "(" (set_clock 5 st1))
  = OError (ErrorString "mismatched input") /\
  grammarLog (snd (@handleExpr Sample.stdTables Sample.grammar Sample.schema "("
                     (set_clock 5 st1))) = grammarLog st1.
Proof.
  intros st1.
  pose proof (@handleExpr_cached_outcome Sample.stdTables Sample.grammar Sample.templates
                Sample.schema Sample.schema "(" ∅ ∅ initState 5 eq_refl) as Hw.
  cbv zeta in Hw.
  assert (Hlive : forall e,
             expirable.find (keyOf Sample.schema "(")
               (exprCache (snd (@handleExpr Sample.stdTables Sample.grammar
                                  Sample.schema "(" initState))) = Some e ->
             5 <= ExpiresAt e).
  { intros e. vm_compute. intros [= <-]. discriminate. }
  destruct (Hw Hlive) as (_ & (Hv & Hlog & _) & _). subst st1.
  split; [rewrite Hv; vm_compute; reflexivity | exact Hlog].
Defined.

(** ** The empty expression *)

Section Reachability.
Context `{HanTables} `{Grammar} `{Templates} `{TypeUtil}.
Import expirable CacheFacts.

Lemma convertHanToASCII_empty : convertHanToASCII EmptyString = EmptyString.
Proof. reflexivity. Qed.

Lemma handleExpr_inv (schema : SchemaHelper) (exprStr : string) (st : State) :
  cache_inv st -> cache_inv (snd (handleExpr schema exprStr st)).
Proof.
  intros Hinv.
  destruct (Get (clock st) (keyOf schema exprStr) (exprCache st)) as [[v|] c] eqn:EG.
  - apply Get_some in EG as (e & Hf & Hlive & <- & ->).
    rewrite (handleExpr_hit _ _ _ _ Hf Hlive). cbn [snd].
    intros x Hx Hk. cbn in Hx. apply (Hinv x); [| exact Hk].
    apply elem_of_cons in Hx as [-> | Hx]; eauto using find_elem, remove_elem.
  - rewrite handleExpr_miss by now rewrite EG.
    pose proof (handleExprWithErrorListener_frame schema (convertHanToASCII exprStr)
                  {| err := None |} st) as (Hc & _ & ext & Hheap).
    pose proof (handleExprWithErrorListener_empty schema {| err := None |} st) as Hempty.
    destruct (handleExprWithErrorListener schema (convertHanToASCII exprStr) _ st)
      as [val st1] eqn:Erun.
    cbn [snd] in *. intros x Hx Hk. cbn in Hx. rewrite Hc in Hx.
    apply Add_elem in Hx as [-> | Hx].
    + cbn in Hk. subst exprStr. rewrite convertHanToASCII_empty in Erun.
      rewrite Hempty in Erun. injection Erun as <- <-.
      exists (length (heap st)). split; [reflexivity |]. cbn.
      rewrite lookup_app_r by lia. now rewrite Nat.sub_diag.
    + destruct (Hinv x Hx Hk) as (a & Hv & Ha). exists a. split; [exact Hv |].
      cbn. rewrite Hheap. now apply lookup_app_l_Some.
Qed.

Lemma FillExpressionValue_inv (a : nat) (vm : gmap string planpb.GenericValue)
    (st : State) :
  cache_inv st -> cache_inv (snd (FillExpressionValue a vm st)).
Proof.
  intros Hinv. unfold FillExpressionValue.
  destruct (heap st !! a) as [e|] eqn:Ea; [| exact Hinv].
  destruct (fillExpr vm e) as [e' r] eqn:Efill. cbn [snd].
  intros x Hx Hk. destruct (Hinv x Hx Hk) as (a0 & Hv & Ha0).
  exists a0. split; [exact Hv |]. cbn.
  destruct (decide (a = a0)) as [-> | Hne].
  - rewrite Ha0 in Ea. injection Ea as <-. cbn in Efill. injection Efill as <- _.
    apply list_lookup_insert_eq. now apply lookup_lt_Some in Ha0.
  - now rewrite list_lookup_insert_ne.
Qed.

Lemma ParseExpr_inv (schema : SchemaHelper) (exprStr : string)
    (tv : gmap string TemplateValue) (st : State) :
  cache_inv st -> cache_inv (snd (ParseExpr schema exprStr tv st)).
Proof.
  intros Hinv. apply (handleExpr_inv schema exprStr) in Hinv.
  unfold ParseExpr, bind.
  destruct (handleExpr schema exprStr st) as [val st1]. cbn [snd] in Hinv.
  destruct (getError val); [exact Hinv |].
  destruct (getExpr val) as [predicate|]; [| exact Hinv].
  destruct (negb (canBeExecuted predicate)); [exact Hinv |].
  destruct (UnmarshalExpressionValues tv) as [e | vm]; [exact Hinv |].
  apply (FillExpressionValue_inv (expr predicate) vm) in Hinv.
  now destruct (FillExpressionValue (expr predicate) vm st1) as [[e|] st2].
Qed.

Lemma ParseIdentifier_state (schema : SchemaHelper) (identifier : string)
    (checkFunc : planpb.Expr -> option error) (st : State) :
  snd (ParseIdentifier schema identifier checkFunc st)
  = snd (handleExpr schema identifier st).
Proof.
  unfold ParseIdentifier, bind, gets, ret.
  destruct (handleExpr schema identifier st) as [val st1]. cbn [snd].
  destruct (getError val); [reflexivity |].
  destruct (getExpr val) as [predicate|]; [| reflexivity].
  destruct (heap st1 !! expr predicate) as [e|]; [| reflexivity].
  now destruct (planpb.GetColumnExpr e).
Qed.

Lemma CreateRetrievePlan_state (schema : SchemaHelper) (exprStr : string)
    (tv : gmap string TemplateValue) (st : State) :
  snd (CreateRetrievePlan schema exprStr tv st) = snd (ParseExpr schema exprStr tv st).
Proof.
  unfold CreateRetrievePlan, bind.
  now destruct (ParseExpr schema exprStr tv st) as [[expr [e|]] st1].
Qed.

Lemma CreateSearchPlan_state (schema : SchemaHelper) (exprStr name : string)
    (queryInfo : option planpb.QueryInfo) (tv : gmap string TemplateValue) (st : State) :
  snd (CreateSearchPlan schema exprStr name queryInfo tv st)
  = snd (CreateSearchPlan_parse schema exprStr tv st).
Proof.
  unfold CreateSearchPlan, bind, ret.
  destruct (CreateSearchPlan_parse schema exprStr tv st) as [[expr [e|]] st1];
    [reflexivity |].
  destruct (GetFieldFromName schema name) as [e | f]; [reflexivity |].
  destruct (negb (IsFieldLoaded schema _)); [reflexivity |].
  destruct (negb (IsVectorType _)); [reflexivity |].
  repeat match goal with
         | |- context [if ?b then _ else _] => destruct b; [reflexivity |]
         end.
  reflexivity.
Qed.

Lemma step_inv (st st' : State) : step st st' -> cache_inv st -> cache_inv st'.
Proof.
  intros Hstep Hinv. destruct Hstep.
  - now apply ParseExpr_inv.
  - rewrite ParseIdentifier_state. now apply handleExpr_inv.
  - rewrite CreateRetrievePlan_state. now apply ParseExpr_inv.
  - rewrite CreateSearchPlan_state. unfold CreateSearchPlan_parse.
    destruct (len exprStr <=? 0)%nat; [exact Hinv | now apply ParseExpr_inv].
  - exact Hinv.
  - intros x Hx Hk. cbn in Hx. unfold deleteExpired in Hx.
    apply list_elem_of_filter in Hx as [_ Hx]. now apply (Hinv x).
Qed.

Lemma reachable_inv (st : State) : reachable st -> cache_inv st.
Proof.
  induction 1 as [| st st' _ IH Hstep].
  - intros x Hx. now apply not_elem_of_nil in Hx.
  - now apply (step_inv st st').
Qed.

End Reachability.

Section EmptyExpression.
Context `{HanTables} `{Grammar} `{Templates} `{TypeUtil}.
Import expirable CacheFacts.

Lemma UnmarshalExpressionValues_empty : UnmarshalExpressionValues ∅ = inr ∅.
Proof. unfold UnmarshalExpressionValues. now rewrite map_to_list_empty. Qed.

(** C6: in every state the system can be in, and for every schema,
    [ParseExpr] on the empty expression string with no template values
    succeeds; the expression it returns is the always-true predicate, the
    outcome it was taken from has boolean type, and the call adds nothing to
    the log of grammar calls and takes nothing from the pools. *)
Theorem ParseExpr_empty_expression (schema : SchemaHelper) (st : State) :
  reachable st ->
  exists a st',
    ParseExpr schema EmptyString ∅ st = ((Some a, None), st') /\
    heap st' !! a = Some alwaysTrueExpr /\
    fst (handleExpr schema EmptyString st)
    = OExpr {| expr := a; dataType := schemapb.DataType_Bool |} /\
    grammarLog st' = grammarLog st /\
    lexerPool st' = lexerPool st /\ parserPool st' = parserPool st /\
    nextInstance st' = nextInstance st.
Proof.
  intros Hinv%reachable_inv.
  unfold ParseExpr, bind.
  destruct (Get (clock st) (keyOf schema EmptyString) (exprCache st)) as [[v|] c] eqn:EG.
  - apply Get_some in EG as (e & Hf & Hlive & <- & ->).
    destruct (Hinv e (find_elem _ _ _ Hf)) as (a & Hv & Ha).
    { now rewrite (find_key _ _ _ Hf). }
    rewrite (handleExpr_hit _ _ _ _ Hf Hlive), Hv. cbn [getError getExpr fst].
    change (negb (canBeExecuted _)) with false. cbn iota.
    rewrite UnmarshalExpressionValues_empty.
    unfold FillExpressionValue. cbn [expr heap set_exprCache]. rewrite Ha. cbn.
    exists a. eexists. split; [reflexivity |]. cbn. repeat split.
    apply list_lookup_insert_eq. now apply lookup_lt_Some in Ha.
  - rewrite handleExpr_miss by now rewrite EG.
    rewrite convertHanToASCII_empty, handleExprWithErrorListener_empty.
    cbn [getError getExpr fst].
    change (negb (canBeExecuted _)) with false. cbn iota.
    rewrite UnmarshalExpressionValues_empty.
    unfold FillExpressionValue. cbn [expr heap set_exprCache set_heap].
    rewrite lookup_app_r by lia. rewrite Nat.sub_diag. cbn.
    exists (length (heap st)). eexists. split; [reflexivity |]. cbn. repeat split.
    rewrite list_lookup_insert_eq by (rewrite length_app; cbn; lia). reflexivity.
Qed.

End EmptyExpression.

Lemma ParseExpr_empty_expression_witness :
  exists a st',
    @ParseExpr Sample.stdTables Sample.grammar Sample.templates
      Sample.schema EmptyString ∅
      (snd (@ParseExpr Sample.stdTables Sample.grammar Sample.templates
              Sample.schema "true" ∅ initState))
    = ((Some a, None), st') /\
    heap st' !! a = Some alwaysTrueExpr.
Proof.
  destruct (@ParseExpr_empty_expression Sample.stdTables Sample.grammar Sample.templates
              Sample.typeutil Sample.schema
              (snd (@ParseExpr Sample.stdTables Sample.grammar Sample.templates
                      Sample.schema "true" ∅ initState)))
    as (a & st' & Hrun & Ha & _).
  - eapply reachable_step; [apply reachable_init | apply step_ParseExpr].
  - exists a, st'. split; [exact Hrun | exact Ha].
Defined.

(** ** Template filling and the cached tree *)

Section CachedTree.
Context `{HanTables} `{Grammar} `{Templates} `{TypeUtil}.
Import expirable CacheFacts.



End CachedTree.



(** What the rewritten tree means for a later caller: the second call below
    asks for the flag to be false and is handed the tree the first call
    filled with true. *)
Example ParseExpr_later_call_sees_first_fill :
  let yes : gmap string planpb.GenericValue :=
    {[ "flag"%string := planpb.GenericValue_BoolVal true ]} in
  let no : gmap string planpb.GenericValue :=
    {[ "flag"%string := planpb.GenericValue_BoolVal false ]} in
  let st1 := snd (@ParseExpr Sample.stdTables Sample.grammar Sample.templates
                    Sample.schema "{flag}" yes initState) in
  let '(r, st2) := @ParseExpr Sample.stdTables Sample.grammar Sample.templates
                     Sample.schema "{flag}" no st1 in
  r = (Some 0%nat, None) /\
  heap st2 !! 0%nat = Some (planpb.Expr_ValueExpr (planpb.GenericValue_BoolVal true)).
Proof. vm_compute. split; reflexivity. Qed.

(** * Further properties of the driver *)

(** ** What [ParseExpr] and the plan builders return *)

Section Results.
Context `{HanTables} `{Grammar} `{Templates} `{TypeUtil}.
Import expirable CacheFacts.

(** A successful [ParseExpr] returns the address held by the compiled
    outcome, and that outcome has boolean type. *)
Lemma ParseExpr_success (schema : SchemaHelper) (exprStr : string)
    (tv : gmap string TemplateValue) (st : State) (a : option nat) :
  fst (ParseExpr schema exprStr tv st) = (a, None) ->
  exists p, fst (handleExpr schema exprStr st) = OExpr p /\ a = Some (expr p) /\
            dataType p = schemapb.DataType_Bool.
Proof.
  unfold ParseExpr, bind.
  destruct (handleExpr schema exprStr st) as [val st1]. cbn [fst].
  destruct val as [p | e |]; cbn [getError getExpr]; try discriminate.
  unfold canBeExecuted.
  destruct (dataType p =? schemapb.DataType_Bool) eqn:Ebool; cbn [negb];
    [| discriminate].
  apply Z.eqb_eq in Ebool.
  destruct (UnmarshalExpressionValues tv) as [e | vm]; [discriminate |].
  destruct (FillExpressionValue (expr p) vm st1) as [[e|] st2]; [discriminate |].
  intros [= <-]. now exists p.
Qed.

(** [ParseExpr] hands back either an expression or an error, never both and
    never neither. An expression is only handed back for a compiled outcome of
    boolean type, and is the tree that outcome points to. An error outcome of
    the pipeline, fresh or cached, comes back wrapped together with the
    expression string, and an outcome of another type is refused with its
    data type named; in both cases the store is left as [handleExpr] left
    it. *)
Theorem ParseExpr_result (schema : SchemaHelper) (exprStr : string)
    (tv : gmap string TemplateValue) (st : State) :
  let res := fst (ParseExpr schema exprStr tv st) in
  let out := fst (handleExpr schema exprStr st) in
  ((exists a, res = (Some a, None)) \/ (exists e, res = (None, Some e))) /\
  (forall a, res = (Some a, None) ->
     exists p, out = OExpr p /\ expr p = a /\ dataType p = schemapb.DataType_Bool) /\
  (forall e, out = OError e ->
     ParseExpr schema exprStr tv st
     = ((None, Some (Errorf "cannot parse expression: %s, error: %s"
                            [ArgString exprStr; ArgError e])),
        snd (handleExpr schema exprStr st))) /\
  (forall p, out = OExpr p -> dataType p <> schemapb.DataType_Bool ->
     ParseExpr schema exprStr tv st
     = ((None, Some (Errorf "predicate is not a boolean expression: %s, data type: %s"
                            [ArgString exprStr; ArgDataType (dataType p)])),
        snd (handleExpr schema exprStr st))).
Proof.
  cbn zeta. split; [| split; [| split]].
  - unfold ParseExpr, bind.
    destruct (handleExpr schema exprStr st) as [val st1].
    destruct (getError val); [right; now eexists |].
    destruct (getExpr val) as [p|]; [| right; now eexists].
    destruct (negb (canBeExecuted p)); [right; now eexists |].
    destruct (UnmarshalExpressionValues tv) as [e | vm]; [right; now eexists |].
    destruct (FillExpressionValue (expr p) vm st1) as [[e|] st2];
      [right | left]; now eexists.
  - intros a Hres. destruct (ParseExpr_success _ _ _ _ _ Hres) as (p & Hout & Ha & Hb).
    exists p. injection Ha as ->. auto.
  - intros e Hout. unfold ParseExpr, bind.
    destruct (handleExpr schema exprStr st) as [val st1]. cbn in Hout. now subst val.
  - intros p Hout Hne. unfold ParseExpr, bind.
    destruct (handleExpr schema exprStr st) as [val st1]. cbn in Hout. subst val.
    cbn [getError getExpr]. unfold canBeExecuted.
    destruct (dataType p =? schemapb.DataType_Bool) eqn:E;
      [apply Z.eqb_eq in E; contradiction | reflexivity].
Qed.

(** The plan [CreateRetrievePlan] returns does not own its predicate: the
    predicate is the tree kept in the cache. Two successful calls under one
    key, the second made before the entry expires, return query nodes that
    point to one and the same tree, with no count and no limit, and the
    second call makes no grammar call. *)
Theorem CreateRetrievePlan_shares_cached_tree (schema schema' : SchemaHelper)
    (exprStr : string) (tv tv' : gmap string TemplateValue) (st st1 st2 : State)
    (t2 : Z) (plan1 plan2 : planpb.PlanNode) :
  GetCollectionName schema' = GetCollectionName schema ->
  CreateRetrievePlan schema exprStr tv st = ((Some plan1, None), st1) ->
  (forall e, find (keyOf schema exprStr) (exprCache st1) = Some e -> t2 <= ExpiresAt e) ->
  CreateRetrievePlan schema' exprStr tv' (set_clock t2 st1) = ((Some plan2, None), st2) ->
  exists p,
    fst (handleExpr schema exprStr st) = OExpr p /\
    plan1 = planpb.PlanNode_Query {| planpb.Predicates := Some (planpb.ExprAt (expr p));
                                     planpb.IsCount := false; planpb.Limit := 0 |} /\
    plan2 = plan1 /\
    grammarLog st2 = grammarLog st1.
Proof.
  intros Hname Hrun1 Hlive Hrun2.
  unfold CreateRetrievePlan, bind, ret in Hrun1, Hrun2.
  destruct (ParseExpr schema exprStr tv st) as [[a1 [e1|]] s1] eqn:E1;
    [discriminate |].
  injection Hrun1 as Hplan1 Hs1. subst s1.
  destruct (ParseExpr schema' exprStr tv' (set_clock t2 st1)) as [[a2 [e2|]] s2] eqn:E2;
    [discriminate |].
  injection Hrun2 as Hplan2 Hs2. subst s2.
  destruct (ParseExpr_success schema exprStr tv st a1) as (p & Hout & -> & _);
    [now rewrite E1 |].
  destruct (ParseExpr_success schema' exprStr tv' (set_clock t2 st1) a2)
    as (p2 & Hout2 & -> & _); [now rewrite E2 |].
  pose proof (ParseExpr_sameButHeap schema exprStr tv st) as (Hc & _).
  rewrite E1 in Hc. cbn [snd] in Hc.
  destruct (handleExpr_again schema schema' exprStr st (set_clock t2 st1) Hname Hc Hlive)
    as (Hv & Hlog & _).
  rewrite Hout, Hout2 in Hv. injection Hv as ->.
  pose proof (ParseExpr_sameButHeap schema' exprStr tv' (set_clock t2 st1))
    as (_ & _ & Hl2 & _).
  rewrite E2 in Hl2. cbn [snd] in Hl2. cbn in Hlog.
  exists p. subst plan1 plan2. repeat split; [exact Hout | congruence].
Qed.

(** [ParseIdentifier] accepts exactly when the string compiles to a typed
    expression whose tree is a bare column reference and the caller's check
    passes on that tree; the data type of the column plays no part. In every
    other case it returns an error, and it leaves the state as [handleExpr]
    left it. *)
Theorem ParseIdentifier_accepts (schema : SchemaHelper) (identifier : string)
    (checkFunc : planpb.Expr -> option error) (st : State) :
  let '(out, st1) := handleExpr schema identifier st in
  snd (ParseIdentifier schema identifier checkFunc st) = st1 /\
  (fst (ParseIdentifier schema identifier checkFunc st) = None <->
   exists p c, out = OExpr p /\
               heap st1 !! expr p = Some (planpb.Expr_ColumnExpr c) /\
               checkFunc (planpb.Expr_ColumnExpr c) = None) /\
  (forall p c, out = OExpr p ->
     heap st1 !! expr p = Some (planpb.Expr_ColumnExpr c) ->
     fst (ParseIdentifier schema identifier checkFunc st)
     = checkFunc (planpb.Expr_ColumnExpr c)).
Proof.
  pose proof (ParseIdentifier_state schema identifier checkFunc st) as Hstate.
  unfold ParseIdentifier, bind, gets, ret in *.
  destruct (handleExpr schema identifier st) as [out st1]. cbn [snd] in Hstate.
  split; [exact Hstate |]. clear Hstate.
  destruct out as [p | e |]; cbn [getError getExpr].
  - destruct (heap st1 !! expr p) as [tree|] eqn:Etree.
    + destruct tree; cbn [planpb.GetColumnExpr fst].
      all: split;
        [split;
         [ intros Hnone; try discriminate Hnone; eauto
         | intros (p' & c & [= <-] & Hc & Hok); rewrite Etree in Hc;
           try discriminate Hc; injection Hc as <-; exact Hok ]
        | intros p' c [= <-] Hc; rewrite Etree in Hc; try discriminate Hc;
          injection Hc as <-; reflexivity ].
    + cbn [fst]. split;
        [split; [discriminate | intros (p' & c & [= <-] & Hc & _); congruence]
        | intros p' c [= <-] Hc; congruence].
  - cbn [fst]. split;
      [split; [discriminate | intros (p' & c & Hp & _); discriminate Hp]
      | intros p' c Hp; discriminate Hp].
  - cbn [fst]. split;
      [split; [discriminate | intros (p' & c & Hp & _); discriminate Hp]
      | intros p' c Hp; discriminate Hp].
Qed.


End Results.

Lemma ParseExpr_result_witness :
  @ParseExpr Sample.stdTables Sample.grammar Sample.templates Sample.schema "age" ∅ initState
  = ((None, Some (Errorf "predicate is not a boolean expression: %s, data type: %s"
                         [ArgString "age"; ArgDataType schemapb.DataType_Int64])),
     snd (@handleExpr Sample.stdTables Sample.grammar Sample.schema "age" initState)).
Proof.
  destruct (@ParseExpr_result Sample.stdTables Sample.grammar Sample.templates
              Sample.schema "age" ∅ initState) as (_ & _ & _ & Hnb).
  apply (Hnb {| expr := 0%nat; dataType := schemapb.DataType_Int64 |}).
  - vm_compute. reflexivity.
  - vm_compute. discriminate.
Defined.

Lemma CreateRetrievePlan_shares_cached_tree_witness :
  let r1 := @CreateRetrievePlan Sample.stdTables Sample.grammar Sample.templates
              Sample.schema "true" ∅ initState in
  let r2 := @CreateRetrievePlan Sample.stdTables Sample.grammar Sample.templates
              Sample.schema "true" ∅ (set_clock 7 (snd r1)) in
  fst (fst r2) = fst (fst r1) /\ grammarLog (snd r2) = grammarLog (snd r1).
Proof.
  intros r1 r2.
  destruct (@CreateRetrievePlan_shares_cached_tree Sample.stdTables Sample.grammar
              Sample.templates Sample.schema Sample.schema "true" ∅ ∅ initState
              (snd r1) (snd r2) 7
              (planpb.PlanNode_Query {| planpb.Predicates := Some (planpb.ExprAt 0);
                                        planpb.IsCount := false; planpb.Limit := 0 |})
              (planpb.PlanNode_Query {| planpb.Predicates := Some (planpb.ExprAt 0);
                                        planpb.IsCount := false; planpb.Limit := 0 |}))
    as (p & _ & _ & _ & Hlog).
  - reflexivity.
  - vm_compute. reflexivity.
  - intros e. vm_compute. intros [= <-]. discriminate.
  - vm_compute. reflexivity.
  - split; [vm_compute; reflexivity | exact Hlog].
Defined.

Lemma ParseIdentifier_accepts_witness :
  fst (@ParseIdentifier Sample.stdTables Sample.grammar Sample.schema "age"
         (fun _ => None) initState) = None.
Proof.
  pose proof (@ParseIdentifier_accepts Sample.stdTables Sample.grammar Sample.schema "age"
                (fun _ => None) initState) as Hw.
  destruct (@handleExpr Sample.stdTables Sample.grammar Sample.schema "age" initState)
    as [out st1] eqn:Erun.
  destruct Hw as (_ & Hiff & _). apply Hiff.
  exists {| expr := 0%nat; dataType := schemapb.DataType_Int64 |}, Sample.ageColumn.
  vm_compute in Erun. injection Erun as <- <-. repeat split.
Defined.


(** ** The stages of the pipeline *)

Section Stages.
Context `{HanTables} `{Grammar} `{Templates} `{TypeUtil}.

(** The pipeline stops at the first grammar stage that fails: the outcome is
    then an error, the visitor is not called, and nothing is added to the
    store; when already the lexer stage fails, the lexer call is the only
    grammar call made. When the four stages pass, lexer, parser, parse and
    visitor are called once each, in that order, and the outcome is what the
    visitor answered, a typed tree being put into the store at a fresh
    address. *)
Theorem handleExprWithErrorListener_short_circuit {L} `{errorListener L}
    (schema : SchemaHelper) (exprStr : string) (listener : L) (st : State) :
  isEmptyExpression exprStr = false ->
  let '(out, st') := handleExprWithErrorListener schema exprStr listener st in
  (grammarStagesPass exprStr listener = false ->
     is_Some (getError out) /\ heap st' = heap st /\
     exists calls,
       grammarLog st' = grammarLog st ++ calls /\ (CallVisit exprStr ∉ calls) /\
       (lexerStagePasses exprStr listener = false -> calls = [CallLexer exprStr])) /\
  (grammarStagesPass exprStr listener = true ->
     grammarLog st' = grammarLog st ++
       [CallLexer exprStr; CallParser exprStr; CallParse exprStr; CallVisit exprStr] /\
     match visit schema (fst (parseExpr exprStr)) with
     | VTyped e t =>
       out = OExpr {| expr := length (heap st); dataType := t |} /\
       heap st' = heap st ++ [e]
     | VError e => out = OError e /\ heap st' = heap st
     | VNil => out = ONil /\ heap st' = heap st
     end).
Proof.
  intros Hne.
  unfold handleExprWithErrorListener, grammarStagesPass, lexerStagePasses.
  rewrite Hne. unfold bind, getLexer, getParser, putLexer, putParser, modify, ret, alloc.
  destruct (parseExpr exprStr) as [ast reported]. cbn [fst snd].
  destruct (lexerPool st) as [|l ls] eqn:El; destruct (parserPool st) as [|p ps] eqn:Ep;
    cbn; rewrite ?El, ?Ep;
    repeat match goal with
           | |- context [match Error ?x with _ => _ end] =>
             destruct (Error x) eqn:?; cbn; rewrite ?El, ?Ep; cbn
           end;
    try (destruct (currentTokenIsEOF exprStr); cbn);
    try (destruct (visit schema ast); cbn);
    (split; intros Hcase; try discriminate Hcase);
    rewrite <- ?app_assoc; cbn [app];
    lazymatch goal with
    | |- is_Some _ /\ _ =>
      split; [now eexists | split; [reflexivity |]];
      eexists; split; [reflexivity | split];
      [ rewrite ?elem_of_cons, elem_of_nil; intuition discriminate
      | intros Hlex;
        first [ reflexivity | discriminate Hlex
              | apply bool_decide_eq_false in Hlex; congruence ] ]
    | |- _ => split; [reflexivity | split; reflexivity]
    end.
Qed.

End Stages.

Lemma handleExprWithErrorListener_short_circuit_witness :
  let '(out, st') := @handleExprWithErrorListener Sample.grammar _ _
                       Sample.schema "(" {| err := None |} initState in
  is_Some (getError out) /\ heap st' = heap initState.
Proof.
  pose proof (@handleExprWithErrorListener_short_circuit Sample.grammar _ _
                Sample.schema "(" {| err := None |} initState eq_refl) as Hw.
  destruct (@handleExprWithErrorListener Sample.grammar _ _
              Sample.schema "(" {| err := None |} initState) as [out st'].
  destruct Hw as (Hfail & _).
  destruct (Hfail eq_refl) as (Herr & Hheap & _). split; assumption.
Defined.

(** ** Invariants of the cache and of the store *)

Module CacheShape.
Import expirable CacheFacts.

Lemma remove_key (k : exprParseKey) (c : list CacheEntry) : k ∉ Key <$> remove k c.
Proof.
  induction c as [|x c IH]; cbn; [apply not_elem_of_nil |].
  destruct (decide (Key x = k)) as [Hk | Hk]; [exact IH |].
  cbn. rewrite elem_of_cons. intros [Heq | Hin]; [congruence | contradiction].
Qed.

Lemma remove_keys_elem (k x : exprParseKey) (c : list CacheEntry) :
  x ∈ Key <$> remove k c -> x ∈ Key <$> c.
Proof.
  intros (e & -> & He%remove_elem)%list_elem_of_fmap.
  apply list_elem_of_fmap. eauto.
Qed.

Lemma remove_NoDup (k : exprParseKey) (c : list CacheEntry) :
  NoDup (Key <$> c) -> NoDup (Key <$> remove k c).
Proof.
  induction c as [|x c IH]; cbn; [auto |].
  intros [Hx Hc]%NoDup_cons.
  destruct (decide (Key x = k)); [auto |].
  cbn. apply NoDup_cons. split; [| auto].
  intros Hin. apply Hx. now apply remove_keys_elem in Hin.
Qed.

Lemma remove_length (k : exprParseKey) (c : list CacheEntry) :
  (length (remove k c) <= length c)%nat.
Proof.
  induction c as [|x c IH]; cbn; [lia |].
  destruct (decide (Key x = k)); cbn; lia.
Qed.

Lemma remove_length_found (k : exprParseKey) (c : list CacheEntry) (e : CacheEntry) :
  find k c = Some e -> (S (length (remove k c)) <= length c)%nat.
Proof.
  induction c as [|x c IH]; cbn; [discriminate |].
  destruct (decide (Key x = k)).
  - intros _. pose proof (remove_length k c). lia.
  - intros Hf. cbn. apply IH in Hf. lia.
Qed.

Lemma find_none_key (k : exprParseKey) (c : list CacheEntry) :
  find k c = None -> k ∉ Key <$> c.
Proof.
  induction c as [|x c IH]; cbn; [intros _; apply not_elem_of_nil |].
  destruct (decide (Key x = k)) as [Hk | Hk]; [discriminate |].
  intros Hf. rewrite elem_of_cons. intros [Heq | Hin]; [congruence | now apply IH].
Qed.

Lemma removelast_keys_NoDup (c : list CacheEntry) :
  NoDup (Key <$> c) -> NoDup (Key <$> removelast c).
Proof.
  induction c as [|x c IH]; [auto |].
  destruct c as [|y c]; [intros _; apply NoDup_nil_2 |].
  change (removelast (x :: y :: c)) with (x :: removelast (y :: c)).
  rewrite !fmap_cons. intros [Hx Hc]%NoDup_cons. apply NoDup_cons. split; [| auto].
  intros (e & He & Hin%removelast_elem)%list_elem_of_fmap.
  apply Hx. rewrite <- fmap_cons. apply list_elem_of_fmap. eauto.
Qed.

Lemma removelast_length (c : list CacheEntry) :
  c <> [] -> S (length (removelast c)) = length c.
Proof.
  induction c as [|x c IH]; [congruence |]. intros _.
  destruct c as [|y c]; [reflexivity |].
  change (removelast (x :: y :: c)) with (x :: removelast (y :: c)).
  cbn [length]. rewrite IH by discriminate. reflexivity.
Qed.

(** A hit reorders the cache: it stays within its size, keys distinct. *)
Lemma hit_shape (k : exprParseKey) (c : list CacheEntry) (e : CacheEntry) :
  find k c = Some e ->
  (length c <= size)%nat /\ NoDup (Key <$> c) ->
  (length (e :: remove k c) <= size)%nat /\ NoDup (Key <$> e :: remove k c).
Proof.
  intros Hf [Hlen Hnd]. split.
  - cbn. pose proof (remove_length_found _ _ _ Hf). lia.
  - rewrite fmap_cons. apply NoDup_cons. split; [| now apply remove_NoDup].
    rewrite (find_key _ _ _ Hf). apply remove_key.
Qed.

(** [Add] keeps the cache within its size and its keys distinct. *)
Lemma Add_shape (now : Z) (k : exprParseKey) (v : Outcome) (c : list CacheEntry) :
  (length c <= size)%nat /\ NoDup (Key <$> c) ->
  (length (Add now k v c) <= size)%nat /\ NoDup (Key <$> Add now k v c).
Proof.
  intros [Hlen Hnd]. unfold Add.
  destruct (find k c) as [e|] eqn:Hf.
  - split.
    + cbn. pose proof (remove_length_found _ _ _ Hf). lia.
    + rewrite fmap_cons. apply NoDup_cons. split; [apply remove_key | now apply remove_NoDup].
  - assert (Hnew : NoDup (Key <$> {| Key := k; Value := v; ExpiresAt := now + ttl |} :: c)).
    { rewrite fmap_cons. apply NoDup_cons. split; [now apply find_none_key | exact Hnd]. }
    destruct (size <? length _)%nat eqn:E.
    + split; [| now apply removelast_keys_NoDup].
      pose proof (removelast_length
                    ({| Key := k; Value := v; ExpiresAt := now + ttl |} :: c)) as Hl.
      cbn [length] in *. specialize (Hl ltac:(discriminate)). lia.
    + apply Nat.ltb_ge in E. split; [exact E | exact Hnew].
Qed.

Lemma deleteExpired_shape (now : Z) (c : list CacheEntry) :
  (length c <= size)%nat /\ NoDup (Key <$> c) ->
  (length (deleteExpired now c) <= size)%nat /\ NoDup (Key <$> deleteExpired now c).
Proof.
  intros [Hlen Hnd]. unfold deleteExpired. split.
  - pose proof (length_filter (fun e => now <= ExpiresAt e) c). lia.
  - induction c as [|x c IH]; [apply NoDup_nil_2 |].
    rewrite fmap_cons in Hnd. apply NoDup_cons in Hnd as [Hx Hc].
    cbn in Hlen. rewrite filter_cons. destruct (decide (now <= ExpiresAt x)).
    + rewrite fmap_cons. apply NoDup_cons. split; [| apply IH; [lia | exact Hc]].
      intros (e & He & Hin%list_elem_of_filter)%list_elem_of_fmap.
      apply Hx. apply list_elem_of_fmap. exists e. tauto.
    + apply IH; [lia | exact Hc].
Qed.

End CacheShape.

Section StateInvariants.
Context `{HanTables} `{Grammar} `{Templates} `{TypeUtil}.
Import expirable CacheFacts CacheShape.

(** A typed outcome of the pipeline points at the tree just put in the store. *)
Lemma handleExprWithErrorListener_typed {L} `{errorListener L}
    (schema : SchemaHelper) (exprStr : string) (listener : L) (st : State)
    (p : ExprWithType) :
  fst (handleExprWithErrorListener schema exprStr listener st) = OExpr p ->
  (expr p < length (heap (snd (handleExprWithErrorListener schema exprStr listener st))))%nat.
Proof.
  unfold handleExprWithErrorListener.
  destruct (isEmptyExpression exprStr).
  { cbn. intros [= <-]. cbn. rewrite length_app. cbn. lia. }
  unfold bind, getLexer, getParser, putLexer, putParser, modify, ret, alloc.
  destruct (parseExpr exprStr) as [ast reported].
  destruct (lexerPool st) as [|l ls] eqn:El; destruct (parserPool st) as [|q ps] eqn:Ep;
    cbn; rewrite ?El, ?Ep;
    repeat match goal with
           | |- context [match Error ?x with _ => _ end] =>
             destruct (Error x) eqn:?; cbn; rewrite ?El, ?Ep; cbn
           end;
    try (destruct (currentTokenIsEOF exprStr); cbn);
    try (destruct (visit schema ast); cbn);
    try discriminate;
    intros [= <-]; cbn; rewrite length_app; cbn; lia.
Qed.

Lemma handleExpr_state_inv (schema : SchemaHelper) (exprStr : string) (st : State) :
  state_inv st ->
  state_inv (snd (handleExpr schema exprStr st)) /\
  (length (heap st) <= length (heap (snd (handleExpr schema exprStr st))))%nat /\
  forall p, fst (handleExpr schema exprStr st) = OExpr p ->
            (expr p < length (heap (snd (handleExpr schema exprStr st))))%nat.
Proof.
  intros (Hcap & Hptr & Httl).
  destruct (Get (clock st) (keyOf schema exprStr) (exprCache st)) as [[v|] c] eqn:EG.
  - apply Get_some in EG as (e & Hf & Hlive & <- & ->).
    rewrite (handleExpr_hit _ _ _ _ Hf Hlive). cbn [fst snd].
    assert (Hsub : forall x, x ∈ e :: remove (keyOf schema exprStr) (exprCache st) ->
                             x ∈ exprCache st).
    { intros x [-> | Hx]%elem_of_cons; eauto using find_elem, remove_elem. }
    split; [split; [| split] | split].
    + apply (hit_shape _ _ _ Hf Hcap).
    + intros x p Hx Hv. cbn in Hx |- *. eauto.
    + intros x Hx. cbn in Hx |- *. eauto.
    + cbn. lia.
    + intros p Hv. cbn. apply (Hptr e p); eauto using find_elem.
  - rewrite handleExpr_miss by now rewrite EG.
    pose proof (handleExprWithErrorListener_frame schema (convertHanToASCII exprStr)
                  {| err := None |} st) as (Hc & Hclk & ext & Hheap).
    pose proof (handleExprWithErrorListener_typed schema (convertHanToASCII exprStr)
                  {| err := None |} st) as Htyped.
    destruct (handleExprWithErrorListener schema (convertHanToASCII exprStr) _ st)
      as [val st1]. cbn [fst snd] in *.
    assert (Hlen : (length (heap st) <= length (heap st1))%nat)
      by (rewrite Hheap, length_app; lia).
    split; [split; [| split] | split].
    + unfold cap_inv. cbn. rewrite Hc. apply Add_shape. exact Hcap.
    + intros x p Hx Hv. cbn in Hx |- *. rewrite Hc in Hx.
      apply Add_elem in Hx as [-> | Hx].
      * cbn in Hv. subst val. now apply Htyped.
      * specialize (Hptr x p Hx Hv). lia.
    + intros x Hx. cbn in Hx |- *. rewrite Hc in Hx.
      apply Add_elem in Hx as [-> | Hx]; [cbn; lia |].
      rewrite Hclk. now apply Httl.
    + cbn. exact Hlen.
    + intros p Hv. cbn. now apply Htyped.
Qed.

Lemma FillExpressionValue_state_inv (a : nat) (vm : gmap string planpb.GenericValue)
    (st : State) :
  state_inv st ->
  state_inv (snd (FillExpressionValue a vm st)) /\
  length (heap (snd (FillExpressionValue a vm st))) = length (heap st).
Proof.
  intros Hinv. unfold FillExpressionValue.
  destruct (heap st !! a) as [e|]; [| now split].
  destruct (fillExpr vm e) as [e' r]. cbn [snd].
  destruct Hinv as (Hcap & Hptr & Httl).
  split; [split; [exact Hcap | split; [| exact Httl]] |].
  - intros x p Hx Hv. cbn in Hx |- *. rewrite length_insert. eauto.
  - cbn. apply length_insert.
Qed.

Lemma ParseExpr_state_inv (schema : SchemaHelper) (exprStr : string)
    (tv : gmap string TemplateValue) (st : State) :
  state_inv st ->
  state_inv (snd (ParseExpr schema exprStr tv st)) /\
  forall a, fst (ParseExpr schema exprStr tv st) = (Some a, None) ->
            (a < length (heap (snd (ParseExpr schema exprStr tv st))))%nat.
Proof.
  intros Hinv.
  destruct (handleExpr_state_inv schema exprStr st Hinv) as (Hinv1 & _ & Hp).
  unfold ParseExpr, bind.
  destruct (handleExpr schema exprStr st) as [val st1]. cbn [fst snd] in *.
  destruct val as [p | e |]; cbn [getError getExpr]; try (split; [exact Hinv1 | discriminate]).
  destruct (negb (canBeExecuted p)); [split; [exact Hinv1 | discriminate] |].
  destruct (UnmarshalExpressionValues tv) as [e | vm]; [split; [exact Hinv1 | discriminate] |].
  destruct (FillExpressionValue_state_inv (expr p) vm st1 Hinv1) as (Hinv2 & Hlen).
  destruct (FillExpressionValue (expr p) vm st1) as [[e|] st2]; cbn [fst snd] in *;
    (split; [exact Hinv2 |]); [discriminate |].
  intros a [= <-]. specialize (Hp p eq_refl). unfold ret. cbn [snd]. lia.
Qed.

Lemma step_state_inv (st st' : State) : step st st' -> state_inv st -> state_inv st'.
Proof.
  intros Hstep Hinv. destruct Hstep.
  - now apply ParseExpr_state_inv.
  - rewrite ParseIdentifier_state. now apply handleExpr_state_inv.
  - rewrite CreateRetrievePlan_state. now apply ParseExpr_state_inv.
  - rewrite CreateSearchPlan_state. unfold CreateSearchPlan_parse.
    destruct (len exprStr <=? 0)%nat; [exact Hinv | now apply ParseExpr_state_inv].
  - destruct Hinv as (Hcap & Hptr & Httl). split; [exact Hcap | split; [exact Hptr |]].
    intros x Hx. cbn in Hx |- *. specialize (Httl x Hx). lia.
  - destruct Hinv as (Hcap & Hptr & Httl). split; [| split].
    + unfold cap_inv. cbn. now apply deleteExpired_shape.
    + intros x p Hx Hv. cbn in Hx |- *. unfold deleteExpired in Hx.
      apply list_elem_of_filter in Hx as [_ Hx]. eauto.
    + intros x Hx. cbn in Hx |- *. unfold deleteExpired in Hx.
      apply list_elem_of_filter in Hx as [_ Hx]. eauto.
Qed.

Lemma reachable_state_inv (st : State) : reachable st -> state_inv st.
Proof.
  induction 1 as [| st st' _ IH Hstep]; [| now apply (step_state_inv st st')].
  split; [split; [cbn; unfold size; lia | apply NoDup_nil_2] | split].
  - intros e p He. now apply not_elem_of_nil in He.
  - intros e He. now apply not_elem_of_nil in He.
Qed.

(** Whatever sequence of public operations, waits and sweeps has run, the
    cache holds at most 256 entries and no key twice. *)
Theorem exprCache_bounded (st : State) :
  reachable st ->
  (length (exprCache st) <= 256)%nat /\ NoDup (Key <$> exprCache st).
Proof. intros Hr. apply (reachable_state_inv st Hr). Qed.

(** In every reachable state, an expression that [ParseExpr] returns
    designates a tree that exists in the store after the call. *)
Theorem ParseExpr_returns_live_tree (schema : SchemaHelper) (exprStr : string)
    (tv : gmap string TemplateValue) (st : State) (a : nat) :
  reachable st ->
  fst (ParseExpr schema exprStr tv st) = (Some a, None) ->
  is_Some (heap (snd (ParseExpr schema exprStr tv st)) !! a).
Proof.
  intros Hr Hres. apply lookup_lt_is_Some.
  now apply (ParseExpr_state_inv schema exprStr tv st (reachable_state_inv st Hr)).
Qed.

(** No outcome is served from the cache once more than the time to live has
    passed since the state was last touched: a call made that late finds
    nothing for its key, runs the pipeline on the normalized string, and
    stores what it got with a fresh time to live. *)
Theorem handleExpr_after_ttl (schema : SchemaHelper) (exprStr : string)
    (st : State) (t2 : Z) :
  reachable st ->
  clock st + ttl < t2 ->
  let late := set_clock t2 st in
  let piped := handleExprWithErrorListener schema (convertHanToASCII exprStr)
                 {| err := None |} late in
  fst (Get t2 (keyOf schema exprStr) (exprCache st)) = None /\
  fst (handleExpr schema exprStr late) = fst piped /\
  grammarLog (snd (handleExpr schema exprStr late)) = grammarLog (snd piped) /\
  find (keyOf schema exprStr) (exprCache (snd (handleExpr schema exprStr late)))
  = Some {| Key := keyOf schema exprStr; Value := fst piped; ExpiresAt := t2 + ttl |}.
Proof.
  intros Hr Hlate. cbn zeta.
  destruct (reachable_state_inv st Hr) as (_ & _ & Httl).
  assert (Hmiss : fst (Get t2 (keyOf schema exprStr) (exprCache st)) = None).
  { unfold Get. destruct (find (keyOf schema exprStr) (exprCache st)) as [e|] eqn:Hf;
      [| reflexivity].
    specialize (Httl e (find_elem _ _ _ Hf)).
    destruct (ExpiresAt e <? t2) eqn:E; [reflexivity | apply Z.ltb_ge in E; lia]. }
  split; [exact Hmiss |].
  rewrite handleExpr_miss by exact Hmiss.
  pose proof (handleExprWithErrorListener_frame schema (convertHanToASCII exprStr)
                {| err := None |} (set_clock t2 st)) as (_ & Hclk & _).
  destruct (handleExprWithErrorListener schema (convertHanToASCII exprStr) _
              (set_clock t2 st)) as [val st1]. cbn [fst snd] in *.
  repeat split. cbn. rewrite Add_find, Hclk. reflexivity.
Qed.

End StateInvariants.

Lemma exprCache_bounded_witness :
  let st := snd (@ParseExpr Sample.stdTables Sample.grammar Sample.templates
                   Sample.schema "true" ∅ initState) in
  (length (exprCache st) <= 256)%nat /\ NoDup (Key <$> exprCache st).
Proof.
  intros st.
  apply (@exprCache_bounded Sample.stdTables Sample.grammar Sample.templates
           Sample.typeutil st).
  eapply reachable_step; [apply reachable_init | apply step_ParseExpr].
Defined.

Lemma ParseExpr_returns_live_tree_witness :
  is_Some (heap (snd (@ParseExpr Sample.stdTables Sample.grammar Sample.templates
                        Sample.schema "true" ∅ initState)) !! 0%nat).
Proof.
  apply (@ParseExpr_returns_live_tree Sample.stdTables Sample.grammar Sample.templates
           Sample.typeutil Sample.schema "true" ∅ initState 0%nat).
  - apply reachable_init.
  - vm_compute. reflexivity.
Defined.

Lemma handleExpr_after_ttl_witness :
  let st := snd (@handleExpr Sample.stdTables Sample.grammar Sample.schema "age" initState) in
  fst (expirable.Get (expirable.ttl + 1) (keyOf Sample.schema "age") (exprCache st)) = None.
Proof.
  intros st.
  apply (@handleExpr_after_ttl Sample.stdTables Sample.grammar Sample.templates
           Sample.typeutil Sample.schema "age" st (expirable.ttl + 1)).
  - unfold st. rewrite <- (@ParseIdentifier_state Sample.stdTables Sample.grammar
                             Sample.schema "age" (fun _ => None) initState).
    eapply reachable_step; [apply reachable_init | apply step_ParseIdentifier].
  - vm_compute. reflexivity.
Defined.

(** ** The normalizer on encoded rune sequences *)

Module Utf8Facts.

Lemma lor_disjoint (h k x : Z) :
  0 <= k -> 0 <= x < 2 ^ k -> Z.lor (h * 2 ^ k) x = h * 2 ^ k + x.
Proof.
  intros Hk Hx.
  assert (Hland : Z.land (h * 2 ^ k) x = 0).
  { apply Z.bits_inj'. intros n Hn. rewrite Z.land_spec, Z.bits_0.
    destruct (Z.lt_ge_cases n k) as [Hlt | Hge].
    - now rewrite Z.mul_pow2_bits_low.
    - replace x with (Z.land x (Z.ones k))
        by (rewrite Z.land_ones by exact Hk; apply Z.mod_small; exact Hx).
      rewrite Z.land_spec, Z.ones_spec_high by lia.
      now rewrite !andb_false_r. }
  pose proof (Z.add_lor_land (h * 2 ^ k) x) as Hadd. lia.
Qed.

Lemma byteZ_zbyte (z : Z) : 0 <= z < 256 -> byteZ (zbyte z) = z.
Proof.
  intros Hz. unfold byteZ, zbyte. rewrite Z.mod_small by exact Hz.
  rewrite N_ascii_embedding by lia. lia.
Qed.

(** Bytes written by the encoder, in arithmetic form. *)
Lemma cont_byte (x : Z) : Z.lor 0x80 (Z.land x 0x3F) = 0x80 + x mod 64.
Proof.
  change 0x3F with (Z.ones 6). rewrite Z.land_ones by lia.
  change 0x80 with (2 * 2 ^ 6). apply lor_disjoint; [lia |].
  apply Z.mod_pos_bound. lia.
Qed.

Lemma low6 (x : Z) : Z.land x 0x3F = x mod 64.
Proof. change 0x3F with (Z.ones 6). now rewrite Z.land_ones by lia. Qed.

Ltac zcmp :=
  repeat (match goal with
          | |- context [?a =? ?b] =>
            destruct (Z.eqb_spec a b); try lia
          | |- context [?a <? ?b] =>
            destruct (Z.ltb_spec a b); try lia
          | |- context [?a <=? ?b] =>
            destruct (Z.leb_spec a b); try lia
          end; cbn [andb orb negb]).

Lemma encodeRune_1 (r : Z) : 0 <= r <= 0x7F ->
  encodeRune r = String (zbyte r) EmptyString.
Proof. intros Hr. unfold encodeRune. zcmp; reflexivity. Qed.

Lemma encodeRune_2 (r : Z) : 0x80 <= r <= 0x7FF ->
  encodeRune r = String (zbyte (0xC0 + r / 64))
                (String (zbyte (0x80 + r mod 64)) EmptyString).
Proof.
  intros Hr.
  assert (Hlead : Z.lor 0xC0 (Z.shiftr r 6) = 0xC0 + r / 64).
  { rewrite Z.shiftr_div_pow2 by lia.
    change 0xC0 with (6 * 2 ^ 5). apply lor_disjoint; [lia |].
    change (2 ^ 6) with 64. change (2 ^ 5) with 32.
    split; [apply Z.div_pos; lia | apply Z.div_lt_upper_bound; lia]. }
  unfold encodeRune. zcmp; now rewrite cont_byte, Hlead.
Qed.

Lemma encode3_arith (r : Z) : 0x800 <= r <= 0xFFFF ->
  encode3 r = String (zbyte (0xE0 + r / 4096))
             (String (zbyte (0x80 + (r / 64) mod 64))
             (String (zbyte (0x80 + r mod 64)) EmptyString)).
Proof.
  intros Hr. unfold encode3.
  rewrite !cont_byte, !Z.shiftr_div_pow2 by lia.
  change 0xE0 with (14 * 2 ^ 4). rewrite lor_disjoint; [reflexivity | lia |].
  change (2 ^ 12) with 4096. change (2 ^ 4) with 16.
  split; [apply Z.div_pos; lia | apply Z.div_lt_upper_bound; lia].
Qed.

Lemma encodeRune_3 (r : Z) :
  0x800 <= r <= 0xFFFF -> ~ (0xD800 <= r <= 0xDFFF) ->
  encodeRune r = String (zbyte (0xE0 + r / 4096))
                (String (zbyte (0x80 + (r / 64) mod 64))
                (String (zbyte (0x80 + r mod 64)) EmptyString)).
Proof.
  intros Hr Hs. unfold encodeRune, MaxRune. zcmp; now apply encode3_arith.
Qed.

Lemma encodeRune_4 (r : Z) : 0x10000 <= r <= 0x10FFFF ->
  encodeRune r = String (zbyte (0xF0 + r / 262144))
                (String (zbyte (0x80 + (r / 4096) mod 64))
                (String (zbyte (0x80 + (r / 64) mod 64))
                (String (zbyte (0x80 + r mod 64)) EmptyString))).
Proof.
  intros Hr.
  assert (Hlead : Z.lor 0xF0 (Z.shiftr r 18) = 0xF0 + r / 262144).
  { rewrite Z.shiftr_div_pow2 by lia.
    change 0xF0 with (30 * 2 ^ 3). apply lor_disjoint; [lia |].
    change (2 ^ 18) with 262144. change (2 ^ 3) with 8.
    split; [apply Z.div_pos; lia | apply Z.div_lt_upper_bound; lia]. }
  unfold encodeRune, MaxRune.
  zcmp; rewrite !cont_byte, Hlead, !Z.shiftr_div_pow2 by lia; reflexivity.
Qed.

Lemma low_bits (x k : Z) (m : Z) :
  0 <= k -> m = Z.ones k -> Z.land x m = x mod 2 ^ k.
Proof. intros Hk ->. now apply Z.land_ones. Qed.

Lemma decodeRune_2 (c0 c1 : ascii) (rest : string) :
  0xC2 <= byteZ c0 <= 0xDF ->
  acceptLo (byteZ c0) <= byteZ c1 <= acceptHi (byteZ c0) ->
  decodeRune (String c0 (String c1 rest))
  = ((byteZ c0 mod 32) * 64 + byteZ c1 mod 64, 2%nat).
Proof.
  intros H0 H1. unfold decodeRune, leadSize, len.
  cbn [String.length].
  zcmp; cbn; f_equal.
  all: rewrite (low_bits _ 5 31), (low_bits _ 6 63), Z.shiftl_mul_pow2 by (reflexivity || lia).
  all: apply lor_disjoint; [lia | apply Z.mod_pos_bound; lia].
Qed.

Lemma decodeRune_3 (c0 c1 c2 : ascii) (rest : string) :
  0xE0 <= byteZ c0 <= 0xEF ->
  acceptLo (byteZ c0) <= byteZ c1 <= acceptHi (byteZ c0) ->
  0x80 <= byteZ c2 <= 0xBF ->
  decodeRune (String c0 (String c1 (String c2 rest)))
  = ((byteZ c0 mod 16) * 4096 + (byteZ c1 mod 64) * 64 + byteZ c2 mod 64, 3%nat).
Proof.
  intros H0 H1 H2.
  unfold decodeRune, leadSize, isCont, len.
  cbn [String.length].
  zcmp; cbn; f_equal.
  all: rewrite (low_bits _ 4 15), !(low_bits _ 6 63), !Z.shiftl_mul_pow2
    by (reflexivity || lia).
  all: pose proof (Z.mod_pos_bound (byteZ c0) 16 ltac:(lia));
       pose proof (Z.mod_pos_bound (byteZ c1) 64 ltac:(lia));
       pose proof (Z.mod_pos_bound (byteZ c2) 64 ltac:(lia)).
  all: rewrite (lor_disjoint (byteZ c0 mod 2 ^ 4) 12 (byteZ c1 mod 2 ^ 6 * 2 ^ 6))
    by (change (2 ^ 4) with 16 in *; change (2 ^ 6) with 64 in *;
        change (2 ^ 12) with 4096; lia).
  all: replace (byteZ c0 mod 2 ^ 4 * 2 ^ 12 + byteZ c1 mod 2 ^ 6 * 2 ^ 6)
    with ((byteZ c0 mod 2 ^ 4 * 64 + byteZ c1 mod 2 ^ 6) * 2 ^ 6)
    by (change (2 ^ 6) with 64; change (2 ^ 12) with 4096; lia).
  all: rewrite lor_disjoint by (change (2 ^ 6) with 64 in *; lia).
  all: change (2 ^ 4) with 16; change (2 ^ 6) with 64; lia.
Qed.

Lemma decodeRune_4 (c0 c1 c2 c3 : ascii) (rest : string) :
  0xF0 <= byteZ c0 <= 0xF4 ->
  acceptLo (byteZ c0) <= byteZ c1 <= acceptHi (byteZ c0) ->
  0x80 <= byteZ c2 <= 0xBF ->
  0x80 <= byteZ c3 <= 0xBF ->
  decodeRune (String c0 (String c1 (String c2 (String c3 rest))))
  = ((byteZ c0 mod 8) * 262144 + (byteZ c1 mod 64) * 4096
     + (byteZ c2 mod 64) * 64 + byteZ c3 mod 64, 4%nat).
Proof.
  intros H0 H1 H2 H3.
  unfold decodeRune, leadSize, isCont, len.
  cbn [String.length].
  zcmp; cbn; f_equal.
  all: rewrite (low_bits _ 3 7), !(low_bits _ 6 63), !Z.shiftl_mul_pow2
    by (reflexivity || lia).
  all: pose proof (Z.mod_pos_bound (byteZ c0) 8 ltac:(lia));
       pose proof (Z.mod_pos_bound (byteZ c1) 64 ltac:(lia));
       pose proof (Z.mod_pos_bound (byteZ c2) 64 ltac:(lia));
       pose proof (Z.mod_pos_bound (byteZ c3) 64 ltac:(lia)).
  all: rewrite (lor_disjoint (byteZ c0 mod 2 ^ 3) 18 (byteZ c1 mod 2 ^ 6 * 2 ^ 12))
    by (change (2 ^ 3) with 8 in *; change (2 ^ 6) with 64 in *;
        change (2 ^ 12) with 4096; change (2 ^ 18) with 262144; lia).
  all: replace (byteZ c0 mod 2 ^ 3 * 2 ^ 18 + byteZ c1 mod 2 ^ 6 * 2 ^ 12)
    with ((byteZ c0 mod 2 ^ 3 * 64 + byteZ c1 mod 2 ^ 6) * 2 ^ 12)
    by (change (2 ^ 12) with 4096; change (2 ^ 18) with 262144; lia).
  all: rewrite (lor_disjoint _ 12 (byteZ c2 mod 2 ^ 6 * 2 ^ 6))
    by (change (2 ^ 6) with 64 in *; change (2 ^ 12) with 4096; lia).
  all: replace ((byteZ c0 mod 2 ^ 3 * 64 + byteZ c1 mod 2 ^ 6) * 2 ^ 12
                + byteZ c2 mod 2 ^ 6 * 2 ^ 6)
    with (((byteZ c0 mod 2 ^ 3 * 64 + byteZ c1 mod 2 ^ 6) * 64
           + byteZ c2 mod 2 ^ 6) * 2 ^ 6)
    by (change (2 ^ 6) with 64; change (2 ^ 12) with 4096; lia).
  all: rewrite lor_disjoint by (change (2 ^ 6) with 64 in *; lia).
  all: change (2 ^ 3) with 8; change (2 ^ 6) with 64; lia.
Qed.

(** Decoding what [encodeRune] wrote gives the rune back, and as width the
    number of bytes written, whatever follows. *)
Lemma decode_encode (r : Z) (rest : string) :
  validRuneP r ->
  decodeRune (encodeRune r ++ rest) = (r, len (encodeRune r)) /\
  (1 <= len (encodeRune r) <= 4)%nat.
Proof.
  intros [Hr Hs]. unfold MaxRune in Hr.
  destruct (Z.le_gt_cases r 0x7F) as [H1 | H1];
    [| destruct (Z.le_gt_cases r 0x7FF) as [H2 | H2];
       [| destruct (Z.le_gt_cases r 0xFFFF) as [H3 | H3]]].
  - rewrite encodeRune_1 by lia.
    change (String ?a "" ++ rest)%string with (String a rest).
    split; [| cbn; lia].
    rewrite decodeRune_ascii; rewrite byteZ_zbyte by lia; [reflexivity | lia].
  - rewrite encodeRune_2 by lia.
    change (String ?a (String ?b "") ++ rest)%string with (String a (String b rest)).
    split; [| cbn; lia].
    assert (0 <= r / 64 < 32 /\ 0 <= r mod 64 < 64) as [Ha Hc]
      by (Z.div_mod_to_equations; lia).
    rewrite decodeRune_2; rewrite !byteZ_zbyte by lia;
      unfold acceptLo, acceptHi; zcmp; try lia.
    all: cbn [len String.length]; f_equal; Z.div_mod_to_equations; lia.
  - rewrite encodeRune_3 by lia.
    change (String ?a (String ?b (String ?c "")) ++ rest)%string
      with (String a (String b (String c rest))).
    split; [| cbn; lia].
    assert (0 <= r / 4096 < 16 /\ 0 <= (r / 64) mod 64 < 64 /\ 0 <= r mod 64 < 64)
      as (Ha & Hb & Hc) by (Z.div_mod_to_equations; lia).
    rewrite decodeRune_3; rewrite !byteZ_zbyte by lia;
      unfold acceptLo, acceptHi; zcmp; try lia.
    all: try (cbn [len String.length]; f_equal; Z.div_mod_to_equations; lia).
    all: Z.div_mod_to_equations; lia.
  - rewrite encodeRune_4 by lia.
    change (String ?a (String ?b (String ?c (String ?d ""))) ++ rest)%string
      with (String a (String b (String c (String d rest)))).
    split; [| cbn; lia].
    assert (0 <= r / 262144 < 5 /\ 0 <= (r / 4096) mod 64 < 64 /\
            0 <= (r / 64) mod 64 < 64 /\ 0 <= r mod 64 < 64)
      as (Ha & Hb & Hc & Hd) by (Z.div_mod_to_equations; lia).
    rewrite decodeRune_4; rewrite !byteZ_zbyte by lia;
      unfold acceptLo, acceptHi; zcmp; try lia.
    all: try (cbn [len String.length]; f_equal; Z.div_mod_to_equations; lia).
    all: Z.div_mod_to_equations; lia.
Qed.

Lemma rangeFrom_skip (t : string) :
  forall (i : nat) (rest : string),
    rangeFrom i (String.length t) (t ++ rest) = rangeFrom (i + String.length t) 0 rest.
Proof.
  induction t as [|c t IH]; intros i rest.
  - cbn [String.length]. now rewrite Nat.add_0_r.
  - change (String c t ++ rest)%string with (String c (t ++ rest)).
    cbn [String.length rangeFrom]. rewrite IH. f_equal. lia.
Qed.

(** One turn of the [range] loop over an encoded rune: the rune comes back,
    at the current offset, and the loop goes on behind its last byte. *)
Lemma rangeFrom_encodeRune (r : Z) (i : nat) (rest : string) :
  validRuneP r ->
  rangeFrom i 0 (encodeRune r ++ rest)
  = (i, r) :: rangeFrom (i + len (encodeRune r)) 0 rest.
Proof.
  intros Hr. destruct (decode_encode r rest Hr) as [Hdec Hlen].
  destruct (encodeRune r) as [|c t] eqn:Eenc; [cbn in Hlen; lia |].
  change (String c t ++ rest)%string with (String c (t ++ rest)) in *.
  cbn [rangeFrom]. rewrite Hdec. cbn [len String.length Nat.pred].
  rewrite rangeFrom_skip. do 2 f_equal. lia.
Qed.

Lemma length_append (a b : string) :
  String.length (a ++ b) = (String.length a + String.length b)%nat.
Proof.
  induction a as [|c a IH]; [reflexivity |].
  change (String c a ++ b)%string with (String c (a ++ b)). cbn. now rewrite IH.
Qed.

Lemma index_append_r (a b : string) (k : nat) :
  index (a ++ b) (String.length a + k) = index b k.
Proof.
  unfold index. rewrite (append_correct2 a b k). f_equal. lia.
Qed.

Lemma validRune_spec (r : Z) : validRune r = true -> validRuneP r.
Proof.
  unfold validRune, validRuneP. intros Hv.
  apply andb_true_iff in Hv as [Hv Hs]. apply andb_true_iff in Hv as [H0 H1].
  apply Z.leb_le in H0, H1. split; [lia |].
  intros [Ha Hb]. apply Z.leb_le in Ha, Hb. rewrite Ha, Hb in Hs. discriminate.
Qed.

Lemma rangeFrom_encodeAll (rs : list Z) :
  Forall (fun r => validRune r = true) rs ->
  forall i, rangeFrom i 0 (encodeAll rs) = offsetsFrom i rs.
Proof.
  induction 1 as [|r rs Hr _ IH]; intros i; [reflexivity |].
  cbn [encodeAll offsetsFrom].
  rewrite rangeFrom_encodeRune by now apply validRune_spec.
  now rewrite IH.
Qed.

Lemma offsetsFrom_runes (rs : list Z) : forall i, map snd (offsetsFrom i rs) = rs.
Proof. induction rs as [|r rs IH]; intros i; cbn; [reflexivity | now rewrite IH]. Qed.

End Utf8Facts.

Section NormalizerOnRunes.
Context `{HanTables}.
Import Utf8Facts.

Lemma hanLoop_no_backslash (s : string) (n : nat) (items : list (nat * Z)) :
  Forall (fun r => r <> backslash) (map snd items) ->
  forall builder,
    hanLoop s n items false builder = (builder ++ escapeAll (map snd items))%string.
Proof.
  induction items as [|[i r] items IH]; intros Hall builder.
  - cbn. now rewrite append_empty_r.
  - cbn [map snd] in Hall. apply Forall_cons in Hall as [Hr Hrest].
    cbn [hanLoop map snd escapeAll].
    destruct (Z.eqb_spec r backslash) as [-> | _]; [contradiction |].
    destruct (isHan r); rewrite IH by exact Hrest; now rewrite append_assoc.
Qed.

Lemma hanLoop_no_han (s : string) (n : nat) (items : list (nat * Z)) :
  Forall (fun r => isHan r = false) (map snd items) ->
  forall skipCur builder,
    s = (builder ++ encodeAll (map snd items))%string ->
    hanLoop s n items skipCur builder = s.
Proof.
  induction items as [|[i r] items IH]; intros Hall skipCur builder Hs.
  - cbn in *. now rewrite append_empty_r in Hs.
  - cbn [map snd] in Hall. apply Forall_cons in Hall as [Hr Hrest].
    cbn [hanLoop]. cbn [map snd encodeAll] in Hs. rewrite <- append_assoc in Hs.
    rewrite Hr.
    destruct skipCur; [now apply IH |].
    destruct (r =? backslash); [| now apply IH].
    match goal with |- (if ?b then _ else _) = _ => destruct b end;
      [reflexivity | now apply IH].
Qed.

Lemma hanLoop_runes (s : string) :
  forall (rs : list Z) (pre : string) (skipCur : bool) (builder : string),
    Forall (fun r => validRune r = true) rs ->
    s = (pre ++ encodeAll rs)%string ->
    hanLoop s (len s) (offsetsFrom (len pre) rs) skipCur builder
    = match normRunes rs skipCur with
      | Some out => (builder ++ out)%string
      | None => s
      end.
Proof.
  induction rs as [|r rest IH]; intros pre skipCur builder Hvalid Hs.
  - cbn. now rewrite append_empty_r.
  - apply Forall_cons in Hvalid as [Hr Hrest].
    cbn [offsetsFrom hanLoop normRunes].
    assert (Hs' : s = ((pre ++ encodeRune r) ++ encodeAll rest)%string)
      by (rewrite append_assoc; exact Hs).
    assert (Hlen : (len pre + len (encodeRune r))%nat = len (pre ++ encodeRune r))
      by (unfold len; now rewrite length_append).
    rewrite Hlen.
    assert (Hstep : forall skip' piece,
               hanLoop s (len s) (offsetsFrom (len (pre ++ encodeRune r)) rest) skip'
                 (builder ++ piece)
               = match String.append piece <$> normRunes rest skip' with
                 | Some out => (builder ++ out)%string
                 | None => s
                 end).
    { intros skip' piece. rewrite (IH _ skip' (builder ++ piece)%string Hrest Hs').
      destruct (normRunes rest skip'); cbn; [now rewrite append_assoc | reflexivity]. }
    destruct skipCur; [apply Hstep |].
    destruct (Z.eqb_spec r backslash) as [-> | Hnb];
      [| destruct (isHan r); apply Hstep].
    assert (Hguard :
      ((len pre + 1 <? len s)%nat
       && negb (from_option isEscapeCh true (index s (len pre + 1))))%bool
      = match rest with
        | next :: _ => negb (from_option isEscapeCh true (firstByte next))
        | [] => false
        end).
    { rewrite Hs. change (encodeAll (backslash :: rest))
        with (String (zbyte backslash) (encodeAll rest)).
      unfold len. rewrite length_append. cbn [String.length].
      destruct rest as [|next rest'].
      - cbn [encodeAll String.length].
        replace (String.length pre + 1 <? String.length pre + 1)%nat with false
          by (symmetry; apply Nat.ltb_ge; lia).
        reflexivity.
      - apply Forall_cons in Hrest as [Hnext _].
        destruct (decode_encode next (encodeAll rest') (validRune_spec _ Hnext))
          as [_ Hl].
        cbn [encodeAll]. unfold firstByte.
        destruct (encodeRune next) as [|c t]; [cbn in Hl; lia |].
        change (String c t ++ encodeAll rest')%string
          with (String c (t ++ encodeAll rest')).
        replace (String.length pre + 1 <? _)%nat with true
          by (symmetry; apply Nat.ltb_lt; cbn; lia).
        rewrite (index_append_r pre _ 1). reflexivity. }
    rewrite Hguard.
    destruct (match rest with
              | next :: _ => negb (from_option isEscapeCh true (firstByte next))
              | [] => false
              end); [reflexivity | apply Hstep].
Qed.


(** When a backslash never occurs, every Han rune of a well-formed string is
    replaced by its escape and every other rune is written back as it was. *)
Theorem convertHanToASCII_escapes_han (rs : list Z) :
  Forall (fun r => validRune r = true) rs ->
  Forall (fun r => r <> backslash) rs ->
  convertHanToASCII (encodeAll rs) = escapeAll rs.
Proof.
  intros Hvalid Hnb. unfold convertHanToASCII, rangeString.
  rewrite rangeFrom_encodeAll by exact Hvalid.
  rewrite hanLoop_no_backslash by now rewrite offsetsFrom_runes.
  now rewrite offsetsFrom_runes.
Qed.

(** A well-formed string without a Han rune comes back unchanged, whatever
    backslashes it holds and whether or not the loop gives up on one. *)
Theorem convertHanToASCII_no_han_identity (rs : list Z) :
  Forall (fun r => validRune r = true) rs ->
  Forall (fun r => isHan r = false) rs ->
  convertHanToASCII (encodeAll rs) = encodeAll rs.
Proof.
  intros Hvalid Hnh. unfold convertHanToASCII, rangeString.
  rewrite rangeFrom_encodeAll by exact Hvalid.
  apply hanLoop_no_han; now rewrite offsetsFrom_runes.
Qed.

(** On a well-formed string the byte loop computes the normalization read on
    runes: the rune after an opening backslash is copied as it is, also when
    it is a Han rune; a closing backslash at the very end is copied; an
    opening backslash before a rune whose first byte is no escape character
    makes the function return its input; every other Han rune is replaced by
    its escape. *)
Theorem convertHanToASCII_on_runes (rs : list Z) :
  Forall (fun r => validRune r = true) rs ->
  convertHanToASCII (encodeAll rs)
  = match normRunes rs false with
    | Some out => out
    | None => encodeAll rs
    end.
Proof.
  intros Hvalid. unfold convertHanToASCII, rangeString.
  rewrite rangeFrom_encodeAll by exact Hvalid.
  pose proof (hanLoop_runes (encodeAll rs) rs EmptyString false EmptyString
                Hvalid eq_refl) as Hloop.
  change (len "") with 0%nat in Hloop. rewrite Hloop.
  now destruct (normRunes rs false).
Qed.

Lemma decodeRune_stray (c : ascii) (rest : string) :
  strayByte (byteZ c) = true -> decodeRune (String c rest) = (RuneError, 1%nat).
Proof.
  unfold strayByte. intros Hs.
  assert (Hb : 0x80 <= byteZ c < 0xC2 \/ 0xF5 <= byteZ c).
  { apply orb_true_iff in Hs as [Hs | Hs]; [left | right; now apply Z.leb_le].
    apply andb_true_iff in Hs as [Ha Hb]. apply Z.leb_le in Ha. apply Z.ltb_lt in Hb. lia. }
  unfold decodeRune, leadSize. zcmp; reflexivity.
Qed.

Lemma hanLoop_plain_or_stray (s : string) (n : nat) :
  isHan RuneError = false ->
  (forall r, 0 <= r < 0x80 -> isHan r = false) ->
  forall (rest : string) (i : nat) (builder : string),
    plainOrStray rest = true ->
    hanLoop s n (rangeFrom i 0 rest) false builder = (builder ++ replaceStray rest)%string.
Proof.
  intros Herr Hascii.
  induction rest as [|c rest IH]; intros i builder Hall.
  - cbn. now rewrite append_empty_r.
  - cbn [plainOrStray] in Hall. apply andb_true_iff in Hall as [Hc Hrest].
    cbn [rangeFrom replaceStray].
    apply orb_true_iff in Hc as [Hplain | Hstray].
    + apply andb_true_iff in Hplain as [Hlt Hnb]. rewrite Hlt.
      apply Z.ltb_lt in Hlt. rewrite (decodeRune_ascii c rest Hlt).
      cbn [Nat.pred hanLoop]. apply negb_true_iff in Hnb. rewrite Hnb.
      rewrite (Hascii (byteZ c)) by (pose proof (byteZ_range c); lia).
      rewrite (encodeRune_ascii c Hlt), IH by exact Hrest.
      now rewrite append_assoc.
    + rewrite (decodeRune_stray c rest Hstray).
      assert (Hge : (byteZ c <? 0x80) = false).
      { unfold strayByte in Hstray. apply Z.ltb_ge.
        apply orb_true_iff in Hstray as [Hs | Hs];
          [apply andb_true_iff in Hs as [Ha _] |]; apply Z.leb_le in Hs || apply Z.leb_le in Ha;
          lia. }
      rewrite Hge. cbn [Nat.pred hanLoop].
      change (RuneError =? backslash) with false. cbn iota. rewrite Herr.
      change (encodeRune RuneError) with (encode3 RuneError).
      rewrite IH by exact Hrest. now rewrite append_assoc.
Qed.

(** A string need not hold a Han rune to be changed: when no backslash
    occurs, every byte that is not ASCII and cannot begin an encoded rune is
    replaced by the three bytes of U+FFFD, the ASCII bytes staying as they
    are. *)
Theorem convertHanToASCII_stray_bytes (s : string) :
  isHan RuneError = false ->
  (forall r, 0 <= r < 0x80 -> isHan r = false) ->
  plainOrStray s = true ->
  convertHanToASCII s = replaceStray s.
Proof.
  intros Herr Hascii Hall. unfold convertHanToASCII, rangeString.
  now rewrite hanLoop_plain_or_stray.
Qed.

End NormalizerOnRunes.

(** Ranging over the bytes written for a sequence of runes gives those runes
    back, each at the offset where its encoding starts. *)
Theorem rangeString_encodeAll (rs : list Z) :
  Forall (fun r => validRune r = true) rs ->
  rangeString (encodeAll rs) = offsetsFrom 0 rs /\
  map snd (rangeString (encodeAll rs)) = rs.
Proof.
  intros Hvalid. unfold rangeString.
  rewrite Utf8Facts.rangeFrom_encodeAll by exact Hvalid.
  split; [reflexivity | apply Utf8Facts.offsetsFrom_runes].
Qed.

Lemma rangeString_encodeAll_witness :
  rangeString (encodeAll [0x61; 0x6C49; 0x1F600; 0xE9])
  = [(0%nat, 0x61); (1%nat, 0x6C49); (4%nat, 0x1F600); (8%nat, 0xE9)].
Proof.
  refine (proj1 (rangeString_encodeAll [0x61; 0x6C49; 0x1F600; 0xE9] _)).
  repeat (constructor; [reflexivity |]). constructor.
Defined.

Lemma convertHanToASCII_escapes_han_witness :
  @convertHanToASCII Sample.stdTables (encodeAll [0x61; 0x6C49; 0x62])
  = @escapeAll Sample.stdTables [0x61; 0x6C49; 0x62].
Proof.
  apply (@convertHanToASCII_escapes_han Sample.stdTables).
  - repeat (constructor; [reflexivity |]). constructor.
  - repeat (constructor; [discriminate |]). constructor.
Defined.

Lemma convertHanToASCII_no_han_identity_witness :
  @convertHanToASCII Sample.stdTables (encodeAll [0xE9; 92; 0x78; 0x1F600])
  = encodeAll [0xE9; 92; 0x78; 0x1F600].
Proof.
  apply (@convertHanToASCII_no_han_identity Sample.stdTables).
  - repeat (constructor; [reflexivity |]). constructor.
  - repeat (constructor; [reflexivity |]). constructor.
Defined.

Lemma convertHanToASCII_on_runes_witness :
  @convertHanToASCII Sample.stdTables (encodeAll [92; 92; 0x6C49])
  = match @normRunes Sample.stdTables [92; 92; 0x6C49] false with
    | Some out => out
    | None => encodeAll [92; 92; 0x6C49]
    end.
Proof.
  apply (@convertHanToASCII_on_runes Sample.stdTables).
  repeat (constructor; [reflexivity |]). constructor.
Defined.

Lemma convertHanToASCII_stray_bytes_witness :
  @convertHanToASCII Sample.stdTables (String (zbyte 0xFF) "a")
  = replaceStray (String (zbyte 0xFF) "a").
Proof.
  apply (@convertHanToASCII_stray_bytes Sample.stdTables).
  - reflexivity.
  - intros r Hr. cbn. unfold Sample.stdHan. lia.
  - reflexivity.
Defined.

(** With the usual escape set: after an escaped backslash a Han rune is
    replaced; a backslash right before a Han rune makes the function give up,
    so that the rune stays; a lone byte 0xFF becomes U+FFFD. *)
Example convertHanToASCII_on_samples :
  @convertHanToASCII Sample.stdTables (encodeAll [92; 92; 0x6C49])
  = String.append "\\" (@formatUnicode Sample.stdTables 0x6C49) /\
  @convertHanToASCII Sample.stdTables (encodeAll [0x62; 92; 0x6C49])
  = encodeAll [0x62; 92; 0x6C49] /\
  @convertHanToASCII Sample.stdTables (String (zbyte 0xFF) "a")
  = String.append (encode3 RuneError) "a".
Proof. vm_compute. repeat split. Qed.

(** ** The pools and the log across whole runs *)

Section GrammarInvariants.
Context `{HanTables} `{Grammar} `{Templates} `{TypeUtil}.
Import expirable CacheFacts.

(** What one run of the pipeline does to the pools and to the log. *)
Lemma handleExprWithErrorListener_grammar {L} `{errorListener L}
    (schema : SchemaHelper) (exprStr : string) (listener : L) (st : State) :
  let st' := snd (handleExprWithErrorListener schema exprStr listener st) in
  (pools_small st -> pools_small st') /\
  (forall c, c ∈ grammarLog st' ->
     c ∈ grammarLog st \/ (callInput c = exprStr /\ isEmptyExpression exprStr = false)).
Proof.
  unfold handleExprWithErrorListener, pools_small.
  destruct (isEmptyExpression exprStr) eqn:Hne.
  { cbn. split; [tauto | auto]. }
  unfold bind, getLexer, getParser, putLexer, putParser, modify, ret, alloc.
  destruct (parseExpr exprStr) as [ast reported].
  destruct (lexerPool st) as [|l [|l2 ls]] eqn:El;
    destruct (parserPool st) as [|q [|q2 ps]] eqn:Ep;
    cbn; rewrite ?El, ?Ep;
    repeat match goal with
           | |- context [match Error ?x with _ => _ end] =>
             destruct (Error x) eqn:?; cbn; rewrite ?El, ?Ep; cbn
           end;
    try (destruct (currentTokenIsEOF exprStr); cbn);
    try (destruct (visit schema ast); cbn);
    (split; [intros [Hlp Hpp]; cbn in *; lia |]);
    intros c Hc; rewrite ?elem_of_app, ?elem_of_cons, ?elem_of_nil in Hc;
    intuition (subst; auto).
Qed.

Lemma handleExpr_grammar_inv (schema : SchemaHelper) (exprStr : string) (st : State) :
  grammar_inv st -> grammar_inv (snd (handleExpr schema exprStr st)).
Proof.
  intros [Hpool Hlog].
  destruct (Get (clock st) (keyOf schema exprStr) (exprCache st)) as [[v|] c] eqn:EG.
  - apply Get_some in EG as (e & Hf & Hlive & <- & ->).
    rewrite (handleExpr_hit _ _ _ _ Hf Hlive). cbn [snd]. split; assumption.
  - rewrite handleExpr_miss by now rewrite EG.
    pose proof (handleExprWithErrorListener_grammar schema (convertHanToASCII exprStr)
                  {| err := None |} st) as [Hp Hl].
    destruct (handleExprWithErrorListener schema (convertHanToASCII exprStr) _ st)
      as [val st1]. cbn [snd] in *.
    split; [exact (Hp Hpool) |].
    intros x Hx. cbn in Hx. destruct (Hl x Hx) as [Hold | [Hin Hne]]; [now apply Hlog |].
    rewrite Hin. split; [exact Hne | now exists exprStr].
Qed.

Lemma sameButHeap_grammar_inv (a b : State) :
  sameButHeap a b -> grammar_inv b -> grammar_inv a.
Proof.
  intros (_ & _ & Hlog & Hlp & Hpp & _) [[Hl Hp] Hinv].
  split; [split; congruence |]. intros c Hc. rewrite Hlog in Hc. now apply Hinv.
Qed.

Lemma step_grammar_inv (st st' : State) : step st st' -> grammar_inv st -> grammar_inv st'.
Proof.
  intros Hstep Hinv.
  assert (Hparse : forall schema exprStr tv,
             grammar_inv (snd (ParseExpr schema exprStr tv st))).
  { intros schema exprStr tv.
    apply (sameButHeap_grammar_inv _ _ (ParseExpr_sameButHeap schema exprStr tv st)).
    now apply handleExpr_grammar_inv. }
  destruct Hstep.
  - apply Hparse.
  - rewrite ParseIdentifier_state. now apply handleExpr_grammar_inv.
  - rewrite CreateRetrievePlan_state. apply Hparse.
  - rewrite CreateSearchPlan_state. unfold CreateSearchPlan_parse.
    destruct (len exprStr <=? 0)%nat; [exact Hinv | apply Hparse].
  - exact Hinv.
  - exact Hinv.
Qed.

Lemma reachable_grammar_inv (st : State) : reachable st -> grammar_inv st.
Proof.
  induction 1 as [| st st' _ IH Hstep]; [| now apply (step_grammar_inv st st')].
  split; [split; cbn; lia |]. intros c Hc. now apply not_elem_of_nil in Hc.
Qed.

(** Used one call after the other, the driver never lets a pool grow beyond
    one instance: in every reachable state each pool holds at most one lexer
    and one parser, so that no instance is pooled twice. *)
Theorem pools_hold_one_instance (st : State) :
  reachable st ->
  (length (lexerPool st) <= 1)%nat /\ (length (parserPool st) <= 1)%nat /\ pools_wf st.
Proof.
  intros Hr. destruct (reachable_grammar_inv st Hr) as [[Hl Hp] _].
  split; [exact Hl | split; [exact Hp |]].
  split.
  - destruct (lexerPool st) as [|l [|l2 ls]]; [apply NoDup_nil_2 | | cbn in Hl; lia].
    apply NoDup_singleton.
  - destruct (parserPool st) as [|q [|q2 ps]]; [apply NoDup_nil_2 | | cbn in Hp; lia].
    apply NoDup_singleton.
Qed.

(** The grammar is never run on an empty string, and never on anything but
    the normalization of an expression string: this holds of every call in
    the log of every reachable state. *)
Theorem grammar_sees_normalized_input (st : State) (c : GrammarCall) :
  reachable st ->
  c ∈ grammarLog st ->
  callInput c <> EmptyString /\ exists raw, callInput c = convertHanToASCII raw.
Proof.
  intros Hr Hc. destruct (reachable_grammar_inv st Hr) as [_ Hlog].
  destruct (Hlog c Hc) as [Hne Hraw]. split; [| exact Hraw].
  intros Heq. rewrite Heq in Hne. discriminate.
Qed.

End GrammarInvariants.

Lemma pools_hold_one_instance_witness :
  let st := snd (@ParseExpr Sample.stdTables Sample.grammar Sample.templates
                   Sample.schema "age" ∅ initState) in
  (length (lexerPool st) <= 1)%nat /\ (length (parserPool st) <= 1)%nat /\ pools_wf st.
Proof.
  intros st.
  apply (@pools_hold_one_instance Sample.stdTables Sample.grammar Sample.templates
           Sample.typeutil st).
  eapply reachable_step; [apply reachable_init | apply step_ParseExpr].
Defined.

Lemma grammar_sees_normalized_input_witness :
  let st := snd (@ParseExpr Sample.stdTables Sample.grammar Sample.templates
                   Sample.schema "age" ∅ initState) in
  callInput (CallVisit "age") <> EmptyString /\
  exists raw, callInput (CallVisit "age") = @convertHanToASCII Sample.stdTables raw.
Proof.
  intros st.
  apply (@grammar_sees_normalized_input Sample.stdTables Sample.grammar Sample.templates
           Sample.typeutil st (CallVisit "age")).
  - eapply reachable_step; [apply reachable_init | apply step_ParseExpr].
  - vm_compute. do 3 apply list_elem_of_further. apply list_elem_of_here.
Defined.

(** ** Plans for the empty expression *)

Section EmptyPlans.
Context `{HanTables} `{Grammar} `{Templates} `{TypeUtil}.
Import expirable CacheFacts.

(** [ParseExpr] on the empty string, from a state that keeps the cache
    invariant. *)
Lemma ParseExpr_empty_run (schema : SchemaHelper) (st : State) :
  cache_inv st ->
  exists a st',
    ParseExpr schema EmptyString ∅ st = ((Some a, None), st') /\
    heap st' !! a = Some alwaysTrueExpr /\
    fst (handleExpr schema EmptyString st)
    = OExpr {| expr := a; dataType := schemapb.DataType_Bool |} /\
    grammarLog st' = grammarLog st /\
    lexerPool st' = lexerPool st /\ parserPool st' = parserPool st /\
    nextInstance st' = nextInstance st.
Proof.
  intros Hinv.
  unfold ParseExpr, bind.
  destruct (Get (clock st) (keyOf schema EmptyString) (exprCache st)) as [[v|] c] eqn:EG.
  - apply Get_some in EG as (e & Hf & Hlive & <- & ->).
    destruct (Hinv e (find_elem _ _ _ Hf)) as (a & Hv & Ha).
    { now rewrite (find_key _ _ _ Hf). }
    rewrite (handleExpr_hit _ _ _ _ Hf Hlive), Hv. cbn [getError getExpr fst].
    change (negb (canBeExecuted _)) with false. cbn iota.
    rewrite UnmarshalExpressionValues_empty.
    unfold FillExpressionValue. cbn [expr heap set_exprCache]. rewrite Ha. cbn.
    exists a. eexists. split; [reflexivity |]. cbn. repeat split.
    apply list_lookup_insert_eq. now apply lookup_lt_Some in Ha.
  - rewrite handleExpr_miss by now rewrite EG.
    rewrite convertHanToASCII_empty, handleExprWithErrorListener_empty.
    cbn [getError getExpr fst].
    change (negb (canBeExecuted _)) with false. cbn iota.
    rewrite UnmarshalExpressionValues_empty.
    unfold FillExpressionValue. cbn [expr heap set_exprCache set_heap].
    rewrite lookup_app_r by lia. rewrite Nat.sub_diag. cbn.
    exists (length (heap st)). eexists. split; [reflexivity |]. cbn. repeat split.
    rewrite list_lookup_insert_eq by (rewrite length_app; cbn; lia). reflexivity.
Qed.

(** With an empty expression string the two builders part ways.
    [CreateRetrievePlan] goes through [ParseExpr] and the cache and returns a
    query node whose predicate is an always-true tree, without a grammar
    call. [CreateSearchPlan] does not compile anything: whatever it returns,
    it leaves the whole shared state untouched, and a plan it returns has no
    predicate. *)
Theorem empty_expression_plans (schema : SchemaHelper) (name : string)
    (queryInfo : option planpb.QueryInfo) (tv : gmap string TemplateValue) (st : State) :
  reachable st ->
  (exists a st',
     CreateRetrievePlan schema EmptyString ∅ st
     = ((Some (planpb.PlanNode_Query {| planpb.Predicates := Some (planpb.ExprAt a);
                                        planpb.IsCount := false;
                                        planpb.Limit := 0 |}), None), st') /\
     heap st' !! a = Some alwaysTrueExpr /\
     grammarLog st' = grammarLog st) /\
  snd (CreateSearchPlan schema EmptyString name queryInfo tv st) = st /\
  (forall plan e,
     fst (CreateSearchPlan schema EmptyString name queryInfo tv st) = (Some plan, e) ->
     exists v, plan = planpb.PlanNode_VectorAnns v /\
               planpb.VectorANNS_Predicates v = None).
Proof.
  intros Hr. split; [| split].
  - destruct (ParseExpr_empty_run schema st (reachable_inv st Hr))
      as (a & st' & Hrun & Ha & _ & Hlog & _).
    exists a, st'. unfold CreateRetrievePlan, bind. rewrite Hrun. cbn. auto.
  - rewrite CreateSearchPlan_state. reflexivity.
  - intros plan e. unfold CreateSearchPlan, bind, ret. cbn.
    destruct (GetFieldFromName schema name) as [fe | f]; cbn; [discriminate |].
    destruct (IsFieldLoaded schema (schemapb.FieldID f)); cbn; [| discriminate].
    destruct (IsVectorType (schemapb.FieldDataType f)); cbn; [| discriminate].
    repeat match goal with
           | |- context [if ?b then _ else _] =>
             destruct b; [cbn; intros [= <- _]; now eexists |]
           end.
    cbn. discriminate.
Qed.

End EmptyPlans.

Lemma empty_expression_plans_witness :
  snd (@CreateSearchPlan Sample.stdTables Sample.grammar Sample.templates Sample.typeutil
         Sample.schema EmptyString "f32" (Some Sample.queryInfo) ∅ initState) = initState.
Proof.
  apply (@empty_expression_plans Sample.stdTables Sample.grammar Sample.templates
           Sample.typeutil Sample.schema "f32" (Some Sample.queryInfo) ∅ initState).
  apply reachable_init.
Defined.
